(** * caddyunmarshal: decoding a Caddyfile directive into a tagged struct

    A shallow embedding of [caddyunmarshal.go].  The Go code drives itself by
    runtime reflection over the target struct; here the reflected type and
    the reflected value are explicit data ([Type_], [Value]), the in-place
    mutation of the target is explicit value passing, and the token cursor
    ([caddyfile.Dispenser]) is an interface with one concrete instance. *)

From Stdlib Require Import ZArith Lia String Ascii List Bool.
From Stdlib Require DecimalString DecimalPos.
From stdpp Require Import base list strings gmap.
Import ListNotations.
Open Scope string_scope.
Open Scope list_scope.
Set Warnings "-register-all".

(** ** The [reflect] package: kinds, types and values *)

Module Reflect.
(** [reflect.Kind], in the order of the Go declaration. *)
Inductive Kind : Set :=
| Invalid | Bool | Int | Int8 | Int16 | Int32 | Int64
| Uint | Uint8 | Uint16 | Uint32 | Uint64 | Uintptr
| Float32 | Float64 | Complex64 | Complex128
| Array | Chan | Func | Interface | Map | Pointer | Slice
| String | Struct | UnsafePointer.

Definition Kind_eq_dec (a b : Kind) : {a = b} + {a <> b}.
Proof. decide equality. Defined.

Definition Kind_eqb (a b : Kind) : bool :=
  if Kind_eq_dec a b then true else false.
End Reflect.

(** Widths of the sized integer types; [WInt] is the platform word of [int]
    and [uint]. *)
Inductive IntWidth : Set := WInt | W8 | W16 | W32 | W64.

Inductive FloatWidth : Set := F32 | F64.

(** Kinds the decoder never looks inside. *)
Inductive OtherKind : Set :=
| OUintptr | OComplex64 | OComplex128 | OArray | OChan | OFunc
| OInterface | OPointer | OSlice | OUnsafePointer.

(** [reflect.Type] together with [reflect.StructField].  A struct tag is held
    in its conventional parsed form, the list of its [key:"value"] pairs. *)
Inductive Type_ : Type :=
| TBool
| TInt (w : IntWidth)
| TUint (w : IntWidth)
| TFloat (w : FloatWidth)
| TString
| TMap (key elem : Type_)
| TStruct (fields : list StructField)
| TNamed (name : string) (underlying : Type_)
| TOther (k : OtherKind) (repr : string)
with StructField : Type :=
| mkStructField (Name PkgPath : string) (Typ : Type_)
                (Tag : list (string * string)).

Definition Name (f : StructField) : string :=
  match f with mkStructField n _ _ _ => n end.
Definition PkgPath (f : StructField) : string :=
  match f with mkStructField _ p _ _ => p end.
Definition Typ (f : StructField) : Type_ :=
  match f with mkStructField _ _ t _ => t end.
Definition Tag (f : StructField) : list (string * string) :=
  match f with mkStructField _ _ _ t => t end.

(** [StructField.IsExported]. *)
Definition IsExported (f : StructField) : bool := String.eqb (PkgPath f) "".

(** [StructTag.Get]: the value of the first pair with that key, or [""]. *)
Fixpoint Tag_Get (tag : list (string * string)) (key : string) : string :=
  match tag with
  | [] => ""
  | (k, v) :: rest => if String.eqb k key then v else Tag_Get rest key
  end.

Definition Kind_of_other (k : OtherKind) : Reflect.Kind :=
  match k with
  | OUintptr => Reflect.Uintptr | OComplex64 => Reflect.Complex64
  | OComplex128 => Reflect.Complex128 | OArray => Reflect.Array
  | OChan => Reflect.Chan | OFunc => Reflect.Func
  | OInterface => Reflect.Interface | OPointer => Reflect.Pointer
  | OSlice => Reflect.Slice | OUnsafePointer => Reflect.UnsafePointer
  end.

(** [Type.Kind]. *)
Fixpoint Kind (t : Type_) : Reflect.Kind :=
  match t with
  | TBool => Reflect.Bool
  | TInt WInt => Reflect.Int | TInt W8 => Reflect.Int8
  | TInt W16 => Reflect.Int16 | TInt W32 => Reflect.Int32
  | TInt W64 => Reflect.Int64
  | TUint WInt => Reflect.Uint | TUint W8 => Reflect.Uint8
  | TUint W16 => Reflect.Uint16 | TUint W32 => Reflect.Uint32
  | TUint W64 => Reflect.Uint64
  | TFloat F32 => Reflect.Float32 | TFloat F64 => Reflect.Float64
  | TString => Reflect.String
  | TMap _ _ => Reflect.Map
  | TStruct _ => Reflect.Struct
  | TNamed _ u => Kind u
  | TOther k _ => Kind_of_other k
  end.

(** The underlying type of a defined type. *)
Fixpoint underlying (t : Type_) : Type_ :=
  match t with
  | TNamed _ u => underlying u
  | _ => t
  end.

Definition HasName (t : Type_) : bool :=
  match t with TNamed _ _ => true | _ => false end.

(** [Type.Bits] of the integer and float kinds, on a 64-bit platform. *)
Definition width_bits (w : IntWidth) : Z :=
  match w with WInt => 64 | W8 => 8 | W16 => 16 | W32 => 32 | W64 => 64 end.

Definition float_bits (w : FloatWidth) : Z :=
  match w with F32 => 32 | F64 => 64 end.

(** The fields of a struct type; [None] is where [NumField] and [Field]
    panic, on a type of any other kind. *)
Definition fields_of (t : Type_) : option (list StructField) :=
  match underlying t with
  | TStruct fs => Some fs
  | _ => None
  end.

(** [Type.Key] and [Type.Elem] of a map type. *)
Definition Key (t : Type_) : Type_ :=
  match underlying t with TMap k _ => k | _ => TOther OInterface "" end.
Definition Elem (t : Type_) : Type_ :=
  match underlying t with TMap _ e => e | _ => TOther OInterface "" end.

(** Identity of types: same constructor, same components. *)
Definition IntWidth_eqb (a b : IntWidth) : bool :=
  match a, b with
  | WInt, WInt | W8, W8 | W16, W16 | W32, W32 | W64, W64 => true
  | _, _ => false
  end.

Definition FloatWidth_eqb (a b : FloatWidth) : bool :=
  match a, b with F32, F32 | F64, F64 => true | _, _ => false end.

Fixpoint Tag_eqb (a b : list (string * string)) : bool :=
  match a, b with
  | [], [] => true
  | (k, v) :: a', (k', v') :: b' =>
      String.eqb k k' && String.eqb v v' && Tag_eqb a' b'
  | _, _ => false
  end.

Fixpoint Type_eqb (a b : Type_) {struct a} : bool :=
  match a, b with
  | TBool, TBool => true
  | TInt w, TInt w' => IntWidth_eqb w w'
  | TUint w, TUint w' => IntWidth_eqb w w'
  | TFloat w, TFloat w' => FloatWidth_eqb w w'
  | TString, TString => true
  | TMap k e, TMap k' e' => Type_eqb k k' && Type_eqb e e'
  | TStruct fs, TStruct fs' =>
      (fix fields_eqb (l l' : list StructField) {struct l} : bool :=
         match l, l' with
         | [], [] => true
         | mkStructField n p t tg :: r, mkStructField n' p' t' tg' :: r' =>
             String.eqb n n' && String.eqb p p' && Type_eqb t t'
             && Tag_eqb tg tg' && fields_eqb r r'
         | _, _ => false
         end) fs fs'
  | TNamed n u, TNamed n' u' => String.eqb n n' && Type_eqb u u'
  | TOther k r, TOther k' r' =>
      Reflect.Kind_eqb (Kind_of_other k) (Kind_of_other k') && String.eqb r r'
  | _, _ => false
  end.

(** [Type.AssignableTo]: identical types, or identical underlying types of
    the same kind when at most one of the two is a defined type.  None of the
    types below is an interface type, so the interface rule never applies. *)
Definition directlyAssignable (T V : Type_) : bool :=
  if Type_eqb T V then true
  else if (HasName T && HasName V)
          || negb (Reflect.Kind_eqb (Kind T) (Kind V)) then false
  else Type_eqb (underlying T) (underlying V).

Definition AssignableTo (V T : Type_) : bool :=
  if Type_eqb V T then true else directlyAssignable T V.

(** [reflect.Value]: what a variable of some type holds.  A map is [None]
    when nil; a non-nil map is an association list with distinct keys.
    [VOpaque] stands for the values the decoder stores but never inspects. *)
Inductive Value : Type :=
| VBool (b : bool)
| VInt (i : Z)
| VUint (u : Z)
| VFloat (ieee : Z)
| VString (s : string)
| VMap (m : option (list (Value * Value)))
| VStruct (fields : list Value)
| VOpaque (repr : string).

(** The zero value of a type, what [reflect.New(t).Elem()] holds. *)
Fixpoint Zero (t : Type_) : Value :=
  match t with
  | TBool => VBool false
  | TInt _ => VInt 0
  | TUint _ => VUint 0
  | TFloat _ => VFloat 0
  | TString => VString ""
  | TMap _ _ => VMap None
  | TStruct fs =>
      VStruct (List.map (fun f => match f with
                                  | mkStructField _ _ t _ => Zero t
                                  end) fs)
  | TNamed _ u => Zero u
  | TOther _ _ => VOpaque ""
  end.

(** Equality of map keys. *)
Fixpoint Value_eqb (a b : Value) {struct a} : bool :=
  match a, b with
  | VBool x, VBool y => Bool.eqb x y
  | VInt x, VInt y => Z.eqb x y
  | VUint x, VUint y => Z.eqb x y
  | VFloat x, VFloat y => Z.eqb x y
  | VString x, VString y => String.eqb x y
  | VStruct xs, VStruct ys =>
      (fix all_eqb (l l' : list Value) {struct l} : bool :=
         match l, l' with
         | [], [] => true
         | x :: r, y :: r' => Value_eqb x y && all_eqb r r'
         | _, _ => false
         end) xs ys
  | VOpaque x, VOpaque y => String.eqb x y
  | _, _ => false
  end.

(** [Value.Field(i)] and its assignment. *)
Definition Field (v : Value) (i : nat) : Value :=
  match v with
  | VStruct vs => default (VOpaque "") (vs !! i)
  | _ => VOpaque ""
  end.

Definition SetField (v : Value) (i : nat) (x : Value) : Value :=
  match v with
  | VStruct vs => VStruct (<[i := x]> vs)
  | _ => v
  end.

(** [Value.SetMapIndex]: [None] is the panic on a nil map. *)
Fixpoint assoc_set (m : list (Value * Value)) (k x : Value)
  : list (Value * Value) :=
  match m with
  | [] => [(k, x)]
  | (k', x') :: r =>
      if Value_eqb k' k then (k', x) :: r else (k', x') :: assoc_set r k x
  end.

Definition SetMapIndex (v k x : Value) : option Value :=
  match v with
  | VMap (Some m) => Some (VMap (Some (assoc_set m k x)))
  | _ => None
  end.

(** [reflectValue]: a value and its type. *)
Record reflectValue : Type := mkReflectValue { v : Value; t : Type_ }.

(** ** The [strings], [strconv] and [regexp] calls of the decoder *)

(** [strings.Split(s, ",")]. *)
Fixpoint Split (s : string) : list string :=
  match s with
  | EmptyString => [""]
  | String c r =>
      if Ascii.eqb c "," then "" :: Split r
      else match Split r with
           | h :: tl => String c h :: tl
           | [] => [String c ""]
           end
  end.

(** [strings.HasPrefix(s, "$")] and [strings.TrimPrefix(s, "$")]. *)
Definition HasPrefix_dollar (s : string) : bool :=
  match s with
  | String c _ => Ascii.eqb c "$"
  | EmptyString => false
  end.

Definition TrimPrefix_dollar (s : string) : string :=
  match s with
  | String c r => if Ascii.eqb c "$" then r else s
  | EmptyString => s
  end.

Definition is_digit (c : ascii) : bool :=
  (48 <=? nat_of_ascii c)%nat && (nat_of_ascii c <=? 57)%nat.

(** The value of a run of decimal digits; [None] on any other character. *)
Fixpoint digits_value (s : string) (acc : Z) : option Z :=
  match s with
  | EmptyString => Some acc
  | String c r =>
      if is_digit c
      then digits_value r (10 * acc + (Z.of_nat (nat_of_ascii c) - 48))
      else None
  end.

(** A decimal numeral with an optional sign and at least one digit. *)
Definition signed_decimal (s : string) : option Z :=
  match s with
  | EmptyString => None
  | String c r =>
      if Ascii.eqb c "-" then
        match r with
        | EmptyString => None
        | _ => option_map Z.opp (digits_value r 0)
        end
      else if Ascii.eqb c "+" then
        match r with
        | EmptyString => None
        | _ => digits_value r 0
        end
      else digits_value s 0
  end.

(** [strconv.ParseInt(s, 10, bitSize)]; [None] is a syntax or range error. *)
Definition ParseInt (s : string) (bitSize : Z) : option Z :=
  match signed_decimal s with
  | Some n =>
      if (- 2 ^ (bitSize - 1) <=? n)%Z && (n <=? 2 ^ (bitSize - 1) - 1)%Z
      then Some n else None
  | None => None
  end.

(** [strconv.ParseUint(s, 10, bitSize)]: no sign is accepted. *)
Definition ParseUint (s : string) (bitSize : Z) : option Z :=
  match s with
  | EmptyString => None
  | _ =>
      match digits_value s 0 with
      | Some n => if (n <=? 2 ^ bitSize - 1)%Z then Some n else None
      | None => None
      end
  end.

(** [strconv.Atoi]: a decimal [int], 64 bits wide. *)
Definition Atoi (s : string) : option Z := ParseInt s 64.

(** [strconv.ParseBool]. *)
Definition ParseBool (s : string) : option bool :=
  if existsb (String.eqb s) ["1"; "t"; "T"; "TRUE"; "true"; "True"]
  then Some true
  else if existsb (String.eqb s) ["0"; "f"; "F"; "FALSE"; "false"; "False"]
  then Some false
  else None.

(** [blockIxRe], the expression [^\{(\d+)\}$]: on a match, the digits. *)
Fixpoint digits_then_brace (s : string) : option string :=
  match s with
  | EmptyString => None
  | String c r =>
      if is_digit c then
        match r with
        | String "}" EmptyString => Some (String c "")
        | _ => option_map (String c) (digits_then_brace r)
        end
      else None
  end.

Definition blockIxRe (s : string) : option string :=
  match s with
  | String "{" r => digits_then_brace r
  | _ => None
  end.

(** [hasOpt]. *)
Fixpoint hasOpt (parts : list string) (opt : string) : bool :=
  match parts with
  | [] => false
  | part :: rest => if String.eqb part opt then true else hasOpt rest opt
  end.

(** ** Errors

    One constructor per [fmt.Errorf] format of the source; a [%w] argument is
    the wrapped error, a [%d], [%s] or [%q] argument the value printed. *)
Inductive error : Type :=
| ErrExpectedStruct
| ErrCannotExtractFields (e : error)
| ErrMatcherWithoutHTTP
| ErrExpectedModuleMap (got : Type_)
| ErrCannotGetModuleMap (e : error)
| ErrUnexpectedArgumentAt (i : nat) (val : string)
| ErrUnexpectedBlockAt (i : nat) (val : string)
| ErrAt (i : nat) (e : error)
| ErrMissingRequiredField (i : nat)
| ErrExpectedStructOrMap (got : Type_)
| ErrMapKey (name : string) (e : error)
| ErrUnexpectedArgumentAtName (name val : string)
| ErrAtName (name : string) (e : error)
| ErrCannotParseInt (raw : string)
| ErrCannotParseUint (raw : string)
| ErrCannotParseFloat (raw : string)
| ErrCannotParseBool (raw : string)
| ErrCannotParseAddress (raw : string)
| ErrCannotParseNetworkAddress (raw : string)
| ErrCannotParseDuration (raw : string)
| ErrUnsupportedType (got : Type_)
| ErrInvalidBlockIndex (name : string)
| ErrInvalidArgumentIndex (name : string)
| ErrNonOptionalFollowsOptional (i : nat)
| ErrDuplicateFieldIndex (ix : Z)
| ErrPosition (line : Z) (e : error)
| ErrExternal (msg : string).

(** ** Field roles *)

Inductive fieldKind : Type :=
| blockFieldKind (name : string)
| blockKind (ix : Z) (optional : bool)
| argumentKind (ix : Z) (optional : bool)
| matcherKind.

(** [fieldInfo].  The Go field [value] is a reference to the storage of
    struct field [i] together with the field's type; here it is the position
    [i], the type being [Typ field]. *)
Record fieldInfo : Type := mkFieldInfo {
  field : StructField;
  value : nat;
  kind : fieldKind
}.

Definition optional (f : fieldInfo) : bool :=
  match kind f with
  | blockKind _ o => o
  | argumentKind _ o => o
  | _ => true
  end.

Definition index (f : fieldInfo) : Z :=
  match kind f with
  | blockKind ix _ => ix
  | argumentKind ix _ => ix
  | _ => (-1)%Z
  end.

Record structInfo : Type := mkStructInfo {
  blockFields : list fieldInfo;
  otherFields : list fieldInfo;
  matcher : option fieldInfo
}.

Fixpoint blockFieldNamed_in (l : list fieldInfo) (name : string)
  : option fieldInfo :=
  match l with
  | [] => None
  | f :: rest =>
      if String.eqb (Name (field f)) name then Some f
      else blockFieldNamed_in rest name
  end.

Definition blockFieldNamed (s : structInfo) (name : string)
  : option fieldInfo :=
  blockFieldNamed_in (blockFields s) name.

Definition otherFieldAt (s : structInfo) (ix : Z) : option fieldInfo :=
  if (ix <? 0)%Z || (Z.of_nat (length (otherFields s)) <=? ix)%Z then None
  else otherFields s !! Z.to_nat ix.

(** ** Results of a call

    A Go call returns, panics, or (in this embedding, where the loops run on
    fuel) is cut short. *)
Inductive outcome (A : Type) : Type :=
| Return (a : A)
| Panic (msg : string)
| OutOfFuel.
Arguments Return {A} a.
Arguments Panic {A} msg.
Arguments OutOfFuel {A}.

Inductive result (A : Type) : Type :=
| Ok (a : A)
| Err (e : error).
Arguments Ok {A} a.
Arguments Err {A} e.

(** ** Slices of [fieldInfo]

    [extractFields] builds its two lists with [append], and in one place
    appends to one list and stores the result in the other, so the two may
    share a backing array.  A slice is a window on a backing array of the
    heap; [append] writes in place while the capacity lasts and moves to a
    fresh array otherwise.  How much spare room a fresh array gets is the Go
    runtime's choice ([growslice]). *)
Class Runtime : Type := { growslice_spare : nat -> nat }.

Record slice : Type := mkSlice { arr : nat; len : nat; cap : nat }.

Abbreviation heap := (list (list fieldInfo)).

(** The nil slice: no backing array is read through it, its length is 0. *)
Definition nil_slice : slice := mkSlice 0 0 0.

Definition elems (h : heap) (s : slice) : list fieldInfo :=
  take (len s) (default [] (h !! arr s)).

Definition append `{Runtime} (h : heap) (s : slice) (x : fieldInfo)
  : slice * heap :=
  if (len s <? cap s)%nat then
    let a := default [] (h !! arr s) in
    (mkSlice (arr s) (S (len s)) (cap s),
     <[arr s := take (len s) a ++ x :: drop (S (len s)) a]> h)
  else
    (mkSlice (length h) (S (len s)) (S (len s) + growslice_spare (cap s)),
     h ++ [elems h s ++ [x]]).

(** [sort.Slice] on at most 12 elements is this insertion sort: element [i]
    is swapped leftwards while it is less than its left neighbour.  (On longer
    slices Go runs pdqsort, which starts with a scan for an out-of-order pair
    and stops when there is none.) *)
Section InsertionSort.
Context {A : Type} (less : A -> A -> bool).

(** [sink x rev_prefix]: [x] arrives at the right end of the sorted prefix,
    held here in reverse. *)
Fixpoint sink (x : A) (rev_prefix : list A) : list A :=
  match rev_prefix with
  | [] => [x]
  | y :: r => if less x y then y :: sink x r else x :: y :: r
  end.

Definition insertionSort (l : list A) : list A :=
  rev (fold_left (fun acc x => sink x acc) l []).
End InsertionSort.

Definition sort_Slice (h : heap) (s : slice)
    (less : fieldInfo -> fieldInfo -> bool) : heap :=
  match h !! arr s with
  | Some a =>
      <[arr s := insertionSort less (take (len s) a) ++ drop (len s) a]> h
  | None => h
  end.

(** ** Schema extraction *)

(** The state of the extraction loop: the three parts of [info], the two
    lists as slices into [hp]. *)
Record extractState : Type := mkExtractState {
  st_blockFields : slice;
  st_otherFields : slice;
  st_matcher : option fieldInfo;
  hp : heap
}.

Definition extract_init : extractState :=
  mkExtractState nil_slice nil_slice None [].

(** One iteration of the loop over the struct's fields. *)
Definition extractField `{Runtime} (st : extractState) (i : nat)
    (f : StructField) : result extractState :=
  if negb (IsExported f) then Ok st
  else
    let tag := Tag_Get (Tag f) "caddyfile" in
    if String.eqb tag "" then
      let '(s', h') :=
        append (hp st) (st_blockFields st)
               (mkFieldInfo f i (blockFieldKind (Name f))) in
      Ok (mkExtractState s' (st_otherFields st) (st_matcher st) h')
    else
      let parts := Split tag in
      let name := hd "" parts in
      if String.eqb name "-" then Ok st
      else if String.eqb name "$matcher" then
        Ok (mkExtractState (st_blockFields st) (st_otherFields st)
                           (Some (mkFieldInfo f i matcherKind)) (hp st))
      else
        match blockIxRe name with
        | Some digits =>
            match Atoi digits with
            | None => Err (ErrInvalidBlockIndex name)
            | Some ix =>
                (* info.otherFields = append(info.blockFields, ...) *)
                let '(s', h') :=
                  append (hp st) (st_blockFields st)
                         (mkFieldInfo f i
                            (blockKind ix (hasOpt (tl parts) "optional"))) in
                Ok (mkExtractState (st_blockFields st) s' (st_matcher st) h')
            end
        | None =>
            if HasPrefix_dollar name then
              match Atoi (TrimPrefix_dollar name) with
              | None => Err (ErrInvalidArgumentIndex name)
              | Some ix =>
                  let '(s', h') :=
                    append (hp st) (st_otherFields st)
                           (mkFieldInfo f i
                              (argumentKind ix
                                 (hasOpt (tl parts) "optional"))) in
                  Ok (mkExtractState (st_blockFields st) s' (st_matcher st) h')
              end
            else
              let '(s', h') :=
                append (hp st) (st_blockFields st)
                       (mkFieldInfo f i (blockFieldKind name)) in
              Ok (mkExtractState s' (st_otherFields st) (st_matcher st) h')
        end.

Fixpoint extractLoop `{Runtime} (fs : list StructField) (i : nat)
    (st : extractState) : result extractState :=
  match fs with
  | [] => Ok st
  | f :: rest =>
      match extractField st i f with
      | Ok st' => extractLoop rest (S i) st'
      | Err e => Err e
      end
  end.

(** "validate that optional fields are at the end" *)
Fixpoint validateOptional (l : list fieldInfo) (i : nat)
    (foundOptional : bool) : option error :=
  match l with
  | [] => None
  | f :: rest =>
      if foundOptional && negb (optional f)
      then Some (ErrNonOptionalFollowsOptional i)
      else validateOptional rest (S i)
             (if foundOptional then true else optional f)
  end.

(** "validate that all field indices are unique" *)
Fixpoint validateUnique (l : list fieldInfo) (usedIndices : gset Z)
  : option error :=
  match l with
  | [] => None
  | f :: rest =>
      if bool_decide (index f ∈ usedIndices)
      then Some (ErrDuplicateFieldIndex (index f))
      else validateUnique rest ({[ index f ]} ∪ usedIndices)
  end.

(** [extractFields].  [r.v.NumField()] panics unless [r] is a struct. *)
Definition extractFields `{Runtime} (r : reflectValue)
  : outcome (result structInfo) :=
  match fields_of (t r) with
  | None => Panic "reflect: call of reflect.Value.NumField on non-struct Value"
  | Some fs =>
      match extractLoop fs 0 extract_init with
      | Err e => Return (Err e)
      | Ok st =>
          let h := sort_Slice (hp st) (st_blockFields st)
                     (fun a b => (index a <? index b)%Z) in
          let info := mkStructInfo (elems h (st_blockFields st))
                                   (elems h (st_otherFields st))
                                   (st_matcher st) in
          match validateOptional (otherFields info) 0 false with
          | Some e => Return (Err e)
          | None =>
              match validateUnique (otherFields info) ∅ with
              | Some e => Return (Err e)
              | None => Return (Ok info)
              end
          end
      end
  end.

(** ** The collaborators of the decoder

    The token cursor, [caddyfile.Dispenser], belongs to the Caddy library.
    The decoder uses it through the seven methods below; each returns its
    result together with the cursor it leaves behind. *)
Class Dispenser (D : Type) : Type := {
  Nesting : D -> Z;
  NextArg : D -> bool * D;
  NextBlock : D -> Z -> bool * D;
  Val : D -> string;
  CountRemainingArgs : D -> Z * D;
  NextSegment : D -> D;
  WrapErr : D -> error -> error
}.

(** What else the decoder calls outside this repository:
    [httpcaddyfile.Helper.MatcherToken]; the defined types that implement
    [caddyfile.Unmarshaler], by name, each with its [UnmarshalCaddyfile]; the
    parsers of floats, addresses and durations. *)
Class Host (D : Type) : Type := {
  MatcherToken : D -> Value * bool * option error * D;
  Unmarshaler : string -> option (D -> Value -> option error * D * Value);
  ParseFloat : string -> Z -> option Z;
  ParseAddress : string -> option Value;
  ParseNetworkAddress : string -> option Value;
  caddy_ParseDuration : string -> option Value;
  time_ParseDuration : string -> option Value
}.

(** "Explicitly supported value types" *)
Definition TypeCaddyModuleMap : Type_ :=
  TNamed "caddy.ModuleMap"
    (TMap TString (TNamed "json.RawMessage" (TOther OSlice "[]uint8"))).

Definition TypeCaddyAddress : Type_ :=
  TNamed "httpcaddyfile.Address"
    (TStruct [mkStructField "Original" "" TString [];
              mkStructField "Scheme" "" TString [];
              mkStructField "Host" "" TString [];
              mkStructField "Port" "" TString [];
              mkStructField "Path" "" TString []]).

Definition TypeCaddyNetworkAddress : Type_ :=
  TNamed "caddy.NetworkAddress"
    (TStruct [mkStructField "Network" "" TString [];
              mkStructField "Host" "" TString [];
              mkStructField "StartPort" "" (TUint WInt) [];
              mkStructField "EndPort" "" (TUint WInt) []]).

Definition TypeCaddyDuration : Type_ := TNamed "caddy.Duration" (TInt W64).

Definition TypeDuration : Type_ := TNamed "time.Duration" (TInt W64).

(** [Type.Bits]. *)
Definition Bits (ty : Type_) : Z :=
  match underlying ty with
  | TInt w => width_bits w
  | TUint w => width_bits w
  | TFloat w => float_bits w
  | _ => 0
  end.

Section Decoder.
Context {D : Type} `{Runtime} `{Dispenser D} `{Host D}.

(** What a decoding call leaves behind: the error it returns ([None] for
    nil), the cursor, and the value now held by the target. *)
Definition reply : Type := option error * D * Value.

Definition bind {A B : Type} (m : outcome A) (k : A -> outcome B)
  : outcome B :=
  match m with
  | Return a => k a
  | Panic msg => Panic msg
  | OutOfFuel => OutOfFuel
  end.

(** The type assertion to [caddyfile.Unmarshaler]: methods belong to
    defined types only. *)
Definition implementsUnmarshaler (ty : Type_)
  : option (D -> Value -> option error * D * Value) :=
  match ty with
  | TNamed name _ => Unmarshaler name
  | _ => None
  end.

(** [unmarshalValue]. *)
Definition unmarshalValue (d : D) (r : reflectValue) (raw : string)
  : reply :=
  match implementsUnmarshaler (t r) with
  | Some UnmarshalCaddyfile => UnmarshalCaddyfile d (v r)
  | None =>
      match Kind (t r) with
      | Reflect.String => (None, d, VString raw)
      | Reflect.Int | Reflect.Int8 | Reflect.Int16 | Reflect.Int32
      | Reflect.Int64 =>
          match ParseInt raw (Bits (t r)) with
          | None => (Some (WrapErr d (ErrCannotParseInt raw)), d, v r)
          | Some i => (None, d, VInt i)
          end
      | Reflect.Uint | Reflect.Uint8 | Reflect.Uint16 | Reflect.Uint32
      | Reflect.Uint64 =>
          match ParseUint raw (Bits (t r)) with
          | None => (Some (WrapErr d (ErrCannotParseUint raw)), d, v r)
          | Some u => (None, d, VUint u)
          end
      | Reflect.Float32 | Reflect.Float64 =>
          match ParseFloat raw (Bits (t r)) with
          | None => (Some (WrapErr d (ErrCannotParseFloat raw)), d, v r)
          | Some f => (None, d, VFloat f)
          end
      | Reflect.Bool =>
          match ParseBool raw with
          | None => (Some (WrapErr d (ErrCannotParseBool raw)), d, v r)
          | Some b => (None, d, VBool b)
          end
      | _ =>
          if AssignableTo (t r) TypeCaddyAddress then
            match ParseAddress raw with
            | None => (Some (WrapErr d (ErrCannotParseAddress raw)), d, v r)
            | Some addr => (None, d, addr)
            end
          else if AssignableTo (t r) TypeCaddyNetworkAddress then
            match ParseNetworkAddress raw with
            | None =>
                (Some (WrapErr d (ErrCannotParseNetworkAddress raw)), d, v r)
            | Some addr => (None, d, addr)
            end
          else if AssignableTo (t r) TypeCaddyDuration then
            match caddy_ParseDuration raw with
            | None => (Some (WrapErr d (ErrCannotParseDuration raw)), d, v r)
            | Some dura => (None, d, dura)
            end
          else if AssignableTo (t r) TypeDuration then
            match time_ParseDuration raw with
            | None => (Some (WrapErr d (ErrCannotParseDuration raw)), d, v r)
            | Some dura => (None, d, dura)
            end
          else (Some (ErrUnsupportedType (t r)), d, v r)
      end
  end.

(** The storage a [fieldInfo] of the record [val] refers to. *)
Definition fieldValue (val : Value) (f : fieldInfo) : reflectValue :=
  mkReflectValue (Field val (value f)) (Typ (field f)).

(** "check if we still have fields to unmarshal": the position, counted
    from [j], of the first field of [l] that is not optional. *)
Fixpoint firstRequired (l : list fieldInfo) (j : nat) : option nat :=
  match l with
  | [] => None
  | f :: rest =>
      if negb (optional f) then Some j else firstRequired rest (S j)
  end.

Definition missingRequired (info : structInfo) (i : nat) (d : D)
  : option error :=
  if (i <? length (otherFields info))%nat then
    match firstRequired (drop i (otherFields info)) 0 with
    | Some j => Some (WrapErr d (ErrMissingRequiredField (i + j)))
    | None => None
    end
  else None.

(** [unmarshal] and [unmarshalBlock], with their loops and the [parse]
    closure of [unmarshalBlock].  [http] tells whether the [dispenser] was
    built by [UnmarshalForHTTP]. *)
Fixpoint unmarshal (fuel : nat) (http : bool) (d : D) (r : reflectValue)
    {struct fuel} : outcome reply :=
  match fuel with
  | O => OutOfFuel
  | S fuel' =>
      bind (extractFields r) (fun extracted =>
      match extracted with
      | Err e => Return (Some (ErrCannotExtractFields e), d, v r)
      | Ok info =>
          match matcher info with
          | Some _ =>
              if negb http then Return (Some ErrMatcherWithoutHTTP, d, v r)
              else if negb (AssignableTo (t r) TypeCaddyModuleMap) then
                Return (Some (ErrExpectedModuleMap (t r)), d, v r)
              else
                let '(moduleMap, ok, err, d1) := MatcherToken d in
                match err with
                | Some e => Return (Some (ErrCannotGetModuleMap e), d1, v r)
                | None =>
                    unmarshal_loop fuel' http info (t r) false 0 d1
                                   (if ok then moduleMap else v r)
                end
          | None => unmarshal_loop fuel' http info (t r) false 0 d (v r)
          end
      end)
  end

with unmarshal_loop (fuel : nat) (http : bool) (info : structInfo)
    (ty : Type_) (hadBlock : bool) (i : nat) (d : D) (val : Value)
    {struct fuel} : outcome reply :=
  match fuel with
  | O => OutOfFuel
  | S fuel' =>
      let nesting := Nesting d in
      let '(isArg, d1) := NextArg d in
      if isArg then
        match otherFieldAt info (Z.of_nat i) with
        | None =>
            Return (Some (WrapErr d1 (ErrUnexpectedArgumentAt i (Val d1))),
                    d1, val)
        | Some f =>
            let '(err, d2, x) :=
              unmarshalValue d1 (fieldValue val f) (Val d1) in
            let val' := SetField val (value f) x in
            match err with
            | Some e => Return (Some (ErrAt i e), d2, val')
            | None => unmarshal_loop fuel' http info ty hadBlock (S i) d2 val'
            end
        end
      else
        let '(isBlock, d2) := NextBlock d1 nesting in
        if isBlock then
          match otherFieldAt info (Z.of_nat i) with
          | Some f =>
              bind (unmarshalBlock fuel' http d2 nesting (fieldValue val f))
                (fun '(err, d3, x) =>
                   let val' := SetField val (value f) x in
                   match err with
                   | Some e => Return (Some (ErrAt i e), d3, val')
                   | None =>
                       unmarshal_loop fuel' http info ty hadBlock (S i) d3 val'
                   end)
          | None =>
              if hadBlock then
                Return (Some (WrapErr d2 (ErrUnexpectedBlockAt i (Val d2))),
                        d2, val)
              else
                bind (unmarshalBlock fuel' http d2 nesting
                        (mkReflectValue val ty))
                  (fun '(err, d3, val') =>
                     match err with
                     | Some e => Return (Some (ErrAt i e), d3, val')
                     | None =>
                         unmarshal_loop fuel' http info ty true (S i) d3 val'
                     end)
          end
        else Return (missingRequired info i d2, d2, val)
  end

with unmarshalBlock (fuel : nat) (http : bool) (d : D) (nesting : Z)
    (r : reflectValue) {struct fuel} : outcome reply :=
  match fuel with
  | O => OutOfFuel
  | S fuel' =>
      match Kind (t r) with
      | Reflect.Struct =>
          bind (extractFields r) (fun extracted =>
          match extracted with
          | Err e => Return (Some (ErrCannotExtractFields e), d, v r)
          | Ok info =>
              unmarshalBlock_loop fuel' http false info nesting (t r) d (v r)
          end)
      | Reflect.Map =>
          unmarshalBlock_loop fuel' http true (mkStructInfo [] [] None)
                              nesting (t r) d (v r)
      | _ => Return (Some (ErrExpectedStructOrMap (t r)), d, v r)
      end
  end

with unmarshalBlock_loop (fuel : nat) (http : bool) (isMap : bool)
    (info : structInfo) (nesting : Z) (ty : Type_) (d : D) (val : Value)
    {struct fuel} : outcome reply :=
  match fuel with
  | O => OutOfFuel
  | S fuel' =>
      bind (parse fuel' http isMap info ty d val)
        (fun '(err, d1, val1) =>
           match err with
           | Some _ => Return (None, d1, val1)  (* return nil *)
           | None =>
               let '(ok, d2) := NextBlock d1 nesting in
               if ok then
                 unmarshalBlock_loop fuel' http isMap info nesting ty d2 val1
               else Return (None, d2, val1)
           end)
  end

with parse (fuel : nat) (http : bool) (isMap : bool) (info : structInfo)
    (ty : Type_) (d : D) (val : Value) {struct fuel} : outcome reply :=
  match fuel with
  | O => OutOfFuel
  | S fuel' =>
      let name := Val d in
      (* the part of the closure after [value] is chosen *)
      let decode (d0 : D) (target : reflectValue) : outcome reply :=
        if Reflect.Kind_eqb (Kind (t target)) Reflect.Bool then
          let '(count, d1) := CountRemainingArgs d0 in
          if (0 <? count)%Z then
            Return (Some (WrapErr d1
                            (ErrUnexpectedArgumentAtName name (Val d1))),
                    d1, v target)
          else Return (None, d1, VBool true)
        else
          bind (unmarshal fuel' http d0 target)
            (fun '(err, d1, x) =>
               Return (option_map (ErrAtName name) err, d1, x)) in
      if isMap then
        let '(kerr, d1, key) :=
          unmarshalValue d (mkReflectValue (Zero (Key ty)) (Key ty)) name in
        match kerr with
        | Some e => Return (Some (ErrMapKey name e), d1, val)
        | None =>
            bind (decode d1 (mkReflectValue (Zero (Elem ty)) (Elem ty)))
              (fun '(err, d2, x) =>
                 (* deferred: r.v.SetMapIndex(key, val) *)
                 match SetMapIndex val key x with
                 | Some val' => Return (err, d2, val')
                 | None => Panic "assignment to entry in nil map"
                 end)
        end
      else
        match blockFieldNamed info name with
        | None => Return (None, NextSegment d, val)
        | Some f =>
            bind (decode d (fieldValue val f))
              (fun '(err, d1, x) =>
                 Return (err, d1, SetField val (value f) x))
        end
  end.

(** [newReflectValue], for a pointer to a value of type [t r]. *)
Definition newReflectValue (r : reflectValue) : result reflectValue :=
  if Reflect.Kind_eqb (Kind (t r)) Reflect.Struct then Ok r
  else Err ErrExpectedStruct.

(** The two entry points. *)
Definition Unmarshal (fuel : nat) (d : D) (target : reflectValue)
  : outcome reply :=
  match newReflectValue target with
  | Err e => Return (Some e, d, v target)
  | Ok r => unmarshal fuel false d r
  end.

Definition UnmarshalForHTTP (fuel : nat) (d : D) (target : reflectValue)
  : outcome reply :=
  match newReflectValue target with
  | Err e => Return (Some e, d, v target)
  | Ok r => unmarshal fuel true d r
  end.
End Decoder.

(** ** The Caddy dispenser

    An instance of the cursor interface that follows [dispenser.go] of the
    Caddy library: a token list, a cursor into it (-1 before the first
    token) and the current nesting depth.  A token carries its file, its
    line and its text; import chains and heredoc markers are left out. *)
Module Caddyfile.
Record Token : Type := mkToken { File : string; Line : Z; Text : string }.

Record Dispenser : Type := mkDispenser {
  tokens : list Token;
  cursor : Z;
  nesting : Z
}.

Definition NewDispenser (tokens : list Token) : Dispenser :=
  mkDispenser tokens (-1) 0.

Definition tokenAt (d : Dispenser) (i : Z) : option Token :=
  if (i <? 0)%Z then None else tokens d !! Z.to_nat i.

Definition Val (d : Dispenser) : string :=
  match tokenAt d (cursor d) with Some tk => Text tk | None => "" end.

Definition Line_ (d : Dispenser) : Z :=
  match tokenAt d (cursor d) with Some tk => Line tk | None => 0%Z end.

Definition Nesting (d : Dispenser) : Z := nesting d.

Definition setCursor (d : Dispenser) (c : Z) : Dispenser :=
  mkDispenser (tokens d) c (nesting d).

Definition setNesting (d : Dispenser) (n : Z) : Dispenser :=
  mkDispenser (tokens d) (cursor d) n.

Definition Next (d : Dispenser) : bool * Dispenser :=
  if (cursor d <? Z.of_nat (length (tokens d)) - 1)%Z
  then (true, setCursor d (cursor d + 1))
  else (false, d).

Definition Prev (d : Dispenser) : bool * Dispenser :=
  if (-1 <? cursor d)%Z
  then ((-1 <? cursor d - 1)%Z, setCursor d (cursor d - 1))
  else (false, d).

Fixpoint count_newlines (s : string) : Z :=
  match s with
  | EmptyString => 0
  | String c r =>
      ((if Ascii.eqb c "010" then 1 else 0) + count_newlines r)%Z
  end.

Definition isNextOnNewLine (t1 t2 : Token) : bool :=
  if negb (String.eqb (File t1) (File t2)) then true
  else (Line t1 + count_newlines (Text t1) <? Line t2)%Z.

Definition nextOnSameLine (d : Dispenser) : bool * Dispenser :=
  if (cursor d <? 0)%Z then (true, setCursor d (cursor d + 1))
  else if (Z.of_nat (length (tokens d)) - 1 <=? cursor d)%Z then (false, d)
  else
    match tokenAt d (cursor d), tokenAt d (cursor d + 1) with
    | Some curr, Some next =>
        if negb (isNextOnNewLine curr next)
        then (true, setCursor d (cursor d + 1))
        else (false, d)
    | _, _ => (false, d)
    end.

Definition NextArg (d : Dispenser) : bool * Dispenser :=
  let '(same, d1) := nextOnSameLine d in
  if negb same then (false, d1)
  else if String.eqb (Val d1) "{" then (false, setCursor d1 (cursor d1 - 1))
  else (true, d1).

Definition NextBlock (d : Dispenser) (initialNestingLevel : Z)
  : bool * Dispenser :=
  if (initialNestingLevel <? nesting d)%Z then
    let '(more, d1) := Next d in
    if negb more then (false, d1)
    else
      let d3 :=
        if String.eqb (Val d1) "}" then
          let '(same, d2) := nextOnSameLine d1 in
          if negb same then setNesting d2 (nesting d2 - 1)
          else if String.eqb (Val d2) "{" then
            let '(same', d2') := nextOnSameLine d2 in
            if negb same' then setNesting d2' (nesting d2' + 1) else d2'
          else d2
        else if String.eqb (Val d1) "{" then
          let '(same, d2) := nextOnSameLine d1 in
          if negb same then setNesting d2 (nesting d2 + 1) else d2
        else d1 in
      ((initialNestingLevel <? nesting d3)%Z, d3)
  else
    let '(same, d1) := nextOnSameLine d in
    if negb same then (false, d1)
    else if negb (String.eqb (Val d1) "{")
    then (false, setCursor d1 (cursor d1 - 1))
    else
      let '(_, d2) := Next d1 in
      if String.eqb (Val d2) "}" then (false, d2)
      else (true, setNesting d2 (nesting d2 + 1)).

(** The loops of [CountRemainingArgs] and [NextSegment] move the cursor
    forward at every turn that goes on, so they make at most one turn per
    token and a last one.  [NextSegment] also collects the tokens it passes,
    stepping back and forth once to pick up the opening brace; the decoder
    drops the segment, so only the cursor is kept here. *)
Fixpoint countArgs (turns : nat) (d : Dispenser) (count : nat)
  : nat * Dispenser :=
  match turns with
  | O => (count, d)
  | S turns' =>
      let '(more, d1) := NextArg d in
      if more then countArgs turns' d1 (S count) else (count, d1)
  end.

Fixpoint rewind (count : nat) (d : Dispenser) : Dispenser :=
  match count with
  | O => d
  | S count' => rewind count' (snd (Prev d))
  end.

Definition CountRemainingArgs (d : Dispenser) : Z * Dispenser :=
  let '(count, d1) := countArgs (S (length (tokens d))) d 0 in
  (Z.of_nat count, rewind count d1).

Fixpoint skipBlock (turns : nat) (d : Dispenser) (nesting0 : Z)
  : Dispenser :=
  match turns with
  | O => d
  | S turns' =>
      let '(more, d1) := NextBlock d nesting0 in
      if more then skipBlock turns' d1 nesting0 else d1
  end.

Definition NextSegment (d : Dispenser) : Dispenser :=
  let '(_, d1) := countArgs (S (length (tokens d))) d 0 in
  skipBlock (S (length (tokens d))) d1 (Nesting d1).

Definition WrapErr (d : Dispenser) (e : error) : error :=
  ErrPosition (Line_ d) e.
End Caddyfile.

#[export] Instance caddy_dispenser : Dispenser Caddyfile.Dispenser := {|
  Nesting := Caddyfile.Nesting;
  NextArg := Caddyfile.NextArg;
  NextBlock := Caddyfile.NextBlock;
  Val := Caddyfile.Val;
  CountRemainingArgs := Caddyfile.CountRemainingArgs;
  NextSegment := Caddyfile.NextSegment;
  WrapErr := Caddyfile.WrapErr
|}.

(** ** Concrete collaborators and the records of the test file *)

(** The growth rule of the Go runtime for slices of up to 256 elements:
    a full slice moves to an array of twice the capacity. *)
#[export] Instance go_runtime : Runtime :=
  {| growslice_spare := fun oldcap => Nat.pred oldcap |}.

(** A host without custom decoders: no type implements
    [caddyfile.Unmarshaler], no matcher token is present, and the domain
    parsers reject every literal. *)
Definition bare_host (D : Type) : Host D := {|
  MatcherToken := fun d => (VOpaque "", false, None, d);
  Unmarshaler := fun _ => None;
  ParseFloat := fun _ _ => None;
  ParseAddress := fun _ => None;
  ParseNetworkAddress := fun _ => None;
  caddy_ParseDuration := fun _ => None;
  time_ParseDuration := fun _ => None
|}.

(** An exported field with the tag [caddyfile:"tag"], and one without tag. *)
Definition tagged (name : string) (ty : Type_) (tag : string) : StructField :=
  mkStructField name "" ty [("caddyfile", tag)].

Definition untagged (name : string) (ty : Type_) : StructField :=
  mkStructField name "" ty [].

(** The three records of [caddyunmarshal_test.go]. *)
Definition thing1 : Type_ :=
  TNamed "thing1"
    (TStruct [tagged "Arg1" TString "$1";
              tagged "Arg2" TString "$3,optional";
              tagged "Junk1" (TMap TString TString) "{2}";
              tagged "Junk2" (TMap TString TString) "{4},optional"]).

Definition thing2 : Type_ :=
  TNamed "thing2"
    (TStruct [tagged "Arg1" TString "$1";
              tagged "Arg2" TString "$2,optional";
              tagged "Param" TString "parameter";
              untagged "Number" (TInt WInt);
              untagged "Flag" TBool]).

Definition thing3 : Type_ :=
  TNamed "thing3"
    (TStruct [tagged "Matcher" TypeCaddyModuleMap "$matcher";
              tagged "Arg1" TString "$1";
              tagged "Arg2" TString "$2,optional"]).

(** A pointer to a fresh record of type [ty]. *)
Definition fresh (ty : Type_) : reflectValue := mkReflectValue (Zero ty) ty.

(** A token of the file "Caddyfile", and the dispenser a directive handler
    holds once it has consumed the directive name with [Next]. *)
Definition tok (line : Z) (text : string) : Caddyfile.Token :=
  Caddyfile.mkToken "Caddyfile" line text.

Definition directive (tokens : list Caddyfile.Token) : Caddyfile.Dispenser :=
  snd (Caddyfile.Next (Caddyfile.NewDispenser tokens)).

(** The error a call returned, if it returned. *)
Definition returned {D : Type} (o : outcome (option error * D * Value))
  : option (option error) :=
  match o with
  | Return (err, _, _) => Some err
  | _ => None
  end.

(** The target as the call left it, if it returned. *)
Definition target {D : Type} (o : outcome (option error * D * Value))
  : option Value :=
  match o with
  | Return (_, _, val) => Some val
  | _ => None
  end.

(** ** The vocabulary of the claims *)

(** A field that schema extraction gives the matcher role: exported, and the
    first component of its [caddyfile] tag is [$matcher]. *)
Definition isMatcherField (f : StructField) : bool :=
  IsExported f
  && String.eqb (hd "" (Split (Tag_Get (Tag f) "caddyfile"))) "$matcher".

(** A record type that declares a matcher field. *)
Definition declaresMatcher (ty : Type_) : bool :=
  match fields_of ty with
  | Some fs => existsb isMatcherField fs
  | None => false
  end.

(** The error at the bottom of a chain of wrappers ([%w]). *)
Fixpoint root_cause (e : error) : error :=
  match e with
  | ErrCannotExtractFields e'
  | ErrCannotGetModuleMap e'
  | ErrAt _ e'
  | ErrMapKey _ e'
  | ErrAtName _ e'
  | ErrPosition _ e' => root_cause e'
  | _ => e
  end.

(** A call that fails with an error whose root cause is [cause]. *)
Definition failsWith {D : Type} (o : outcome (option error * D * Value))
    (cause : error) : Prop :=
  exists e d val, o = Return (Some e, d, val) /\ root_cause e = cause.

(** [a] is either out of fuel or already what [b] is. *)
Definition settled {A : Type} (a b : outcome A) : Prop :=
  a = OutOfFuel \/ a = b.

(** ** Roles and the declared lists

    What the switch of [extractFields] decides for one field, and the lists
    the appends build when no backing array is shared. *)
Inductive role : Type :=
| Skipped
| Entry (x : fieldInfo)
| MatcherRole (x : fieldInfo)
| BlockGroup (x : fieldInfo)
| Argument (x : fieldInfo)
| Malformed (e : error).

Definition roleOf (i : nat) (f : StructField) : role :=
  if negb (IsExported f) then Skipped
  else
    let tag := Tag_Get (Tag f) "caddyfile" in
    if String.eqb tag "" then Entry (mkFieldInfo f i (blockFieldKind (Name f)))
    else
      let parts := Split tag in
      let name := hd "" parts in
      if String.eqb name "-" then Skipped
      else if String.eqb name "$matcher"
      then MatcherRole (mkFieldInfo f i matcherKind)
      else
        match blockIxRe name with
        | Some digits =>
            match Atoi digits with
            | None => Malformed (ErrInvalidBlockIndex name)
            | Some ix =>
                BlockGroup (mkFieldInfo f i
                              (blockKind ix (hasOpt (tl parts) "optional")))
            end
        | None =>
            if HasPrefix_dollar name then
              match Atoi (TrimPrefix_dollar name) with
              | None => Malformed (ErrInvalidArgumentIndex name)
              | Some ix =>
                  Argument (mkFieldInfo f i
                              (argumentKind ix
                                 (hasOpt (tl parts) "optional")))
              end
            else Entry (mkFieldInfo f i (blockFieldKind name))
        end.

(** The three parts of [info] as lists. *)
Definition lists : Type :=
  (list fieldInfo * list fieldInfo * option fieldInfo)%type.

Definition declareField (ls : lists) (ro : role) : result lists :=
  let '(bf, other, m) := ls in
  match ro with
  | Skipped => Ok ls
  | Entry x => Ok (bf ++ [x], other, m)
  | MatcherRole x => Ok (bf, other, Some x)
  | BlockGroup x => Ok (bf, bf ++ [x], m)
  | Argument x => Ok (bf, other ++ [x], m)
  | Malformed e => Err e
  end.

Fixpoint declareLoop (fs : list StructField) (i : nat) (ls : lists)
  : result lists :=
  match fs with
  | [] => Ok ls
  | f :: rest =>
      match declareField ls (roleOf i f) with
      | Ok ls' => declareLoop rest (S i) ls'
      | Err e => Err e
      end
  end.

(** The two validations, on the lists. *)
Definition validated (ls : lists) : result structInfo :=
  let '(bf, other, m) := ls in
  match validateOptional other 0 false with
  | Some e => Err e
  | None =>
      match validateUnique other ∅ with
      | Some e => Err e
      | None => Ok (mkStructInfo bf other m)
      end
  end.

Definition declaredSchema (fs : list StructField) : result structInfo :=
  match declareLoop fs 0 ([], [], None) with
  | Ok ls => validated ls
  | Err e => Err e
  end.

(** No block-entry field is declared after an indexed-block field: the
    condition under which no append writes into an array that another list
    still reads.  [seen] tells whether an indexed-block field came before. *)
Fixpoint entriesFirst (seen : bool) (fs : list StructField) (i : nat) : bool :=
  match fs with
  | [] => true
  | f :: rest =>
      match roleOf i f with
      | Entry _ => negb seen && entriesFirst seen rest (S i)
      | BlockGroup _ => entriesFirst true rest (S i)
      | Malformed _ => true
      | _ => entriesFirst seen rest (S i)
      end
  end.

(** A slice that [append] can work on: within its capacity, and within its
    backing array when it has one. *)
Definition wf (h : heap) (s : slice) : Prop :=
  len s <= cap s
  /\ (0 < cap s -> exists a, h !! arr s = Some a /\ len s <= length a).

(** The two lists of the state read [bf] and [other]; if they share a
    backing array, an indexed-block field was seen and the second is the
    longer. *)
Definition represents (st : extractState) (ls : lists) (seen : bool) : Prop :=
  let '(bf, other, m) := ls in
  st_matcher st = m
  /\ wf (hp st) (st_blockFields st)
  /\ wf (hp st) (st_otherFields st)
  /\ elems (hp st) (st_blockFields st) = bf
  /\ elems (hp st) (st_otherFields st) = other
  /\ (0 < cap (st_blockFields st) -> 0 < cap (st_otherFields st) ->
      arr (st_blockFields st) = arr (st_otherFields st) ->
      seen = true /\ len (st_blockFields st) < len (st_otherFields st)).

(** A list entry in the block-entry role. *)
Definition isBlockField (x : fieldInfo) : bool :=
  match kind x with blockFieldKind _ => true | _ => false end.

(** The positional fields of a record, in declaration order, for a record
    that declares no indexed-block field and no malformed index. *)
Fixpoint positionalOnly (fs : list StructField) (i : nat) : bool :=
  match fs with
  | [] => true
  | f :: rest =>
      match roleOf i f with
      | BlockGroup _ | Malformed _ => false
      | _ => positionalOnly rest (S i)
      end
  end.

Fixpoint positionals (fs : list StructField) (i : nat) : list fieldInfo :=
  match fs with
  | [] => []
  | f :: rest =>
      match roleOf i f with
      | Argument x => x :: positionals rest (S i)
      | _ => positionals rest (S i)
      end
  end.

(** The same two notions on a record type. *)
Definition positionalRecord (ty : Type_) : bool :=
  match fields_of ty with
  | Some fs => positionalOnly fs 0
  | None => false
  end.

Definition declared (ty : Type_) : list fieldInfo :=
  match fields_of ty with
  | Some fs => positionals fs 0
  | None => []
  end.

(** Position [i] of [l] holds a non-optional field and an earlier position
    holds an optional one. *)
Definition offending (l : list fieldInfo) (i : nat) : Prop :=
  exists f, l !! i = Some f /\ optional f = false
            /\ exists j g, j < i /\ l !! j = Some g /\ optional g = true.

(** Positions [i < j] of [l] hold fields of the same declared index. *)
Definition sameIndex (l : list fieldInfo) (i j : nat) : Prop :=
  exists f g, i < j /\ l !! i = Some f /\ l !! j = Some g
              /\ index f = index g.

(** The fields of [l] are listed by non-decreasing declared index: the order
    of declaration is the order by index. *)
Fixpoint nondecreasing (zs : list Z) : bool :=
  match zs with
  | a :: (b :: _) as rest => (a <=? b)%Z && nondecreasing rest
  | _ => true
  end.

Definition inIndexOrder (l : list fieldInfo) : Prop :=
  nondecreasing (List.map index l) = true.

(** [validateOptional] resumed with [found] set: the offenders of [l] then
    include every non-optional field. *)
Definition offendingAfter (found : bool) (l : list fieldInfo) (i : nat)
  : Prop :=
  exists f, l !! i = Some f /\ optional f = false
            /\ (found = true
                \/ exists j g, j < i /\ l !! j = Some g /\ optional g = true).

(** Records on which the two validations are tried: the argument list of
    the comment in the test file, ("$1", "$2,optional", "$3"); an index
    declared twice; an optional and a required field of the same index. *)
Definition illegal : Type_ :=
  TNamed "illegal" (TStruct [tagged "A" TString "$1";
                             tagged "B" TString "$2,optional";
                             tagged "C" TString "$3"]).

Definition twice : Type_ :=
  TNamed "twice" (TStruct [tagged "A" TString "$1";
                           tagged "B" TString "$1"]).

Definition optionalTwice : Type_ :=
  TNamed "optionalTwice" (TStruct [tagged "A" TString "$1,optional";
                                   tagged "B" TString "$1"]).

(** A positional and an indexed-block field of the same index. *)
Definition mixedTwice : Type_ :=
  TNamed "mixedTwice" (TStruct [tagged "A" TString "$1";
                                tagged "B" (TMap TString TBool) "{1}"]).

(** Two indexed-block fields of the same index. *)
Definition blocksTwice : Type_ :=
  TNamed "blocksTwice" (TStruct [tagged "A" (TMap TString TBool) "{1}";
                                 tagged "B" (TMap TString TBool) "{1}"]).

(** A required field of index 2 declared before an optional one of index 1,
    and an optional field of index 2 declared before a required one of
    index 1. *)
Definition requiredLast : Type_ :=
  TNamed "requiredLast" (TStruct [tagged "B" TString "$2";
                                  tagged "A" TString "$1,optional"]).

Definition optionalLast : Type_ :=
  TNamed "optionalLast" (TStruct [tagged "B" TString "$2,optional";
                                  tagged "A" TString "$1"]).

(** A type all of whose struct types declare their block-entry fields before
    their indexed-block fields. *)
Fixpoint orderly (ty : Type_) : bool :=
  match ty with
  | TMap k e => orderly k && orderly e
  | TStruct fs =>
      entriesFirst false fs 0
      && (fix all (l : list StructField) : bool :=
            match l with
            | [] => true
            | mkStructField _ _ fty _ :: rest => orderly fty && all rest
            end) fs
  | TNamed _ u => orderly u
  | _ => true
  end.

(** A schema whose fields are of orderly types. *)
Definition orderlyInfo (info : structInfo) : Prop :=
  Forall (fun x => orderly (Typ (field x)) = true) (blockFields info)
  /\ Forall (fun x => orderly (Typ (field x)) = true) (otherFields info).

(** Schema extraction as the declared lists give it. *)
Definition declaredOutcome (r : reflectValue) : outcome (result structInfo) :=
  match fields_of (t r) with
  | None => Panic "reflect: call of reflect.Value.NumField on non-struct Value"
  | Some fs => Return (declaredSchema fs)
  end.

(** ** Inputs on which the claims are tried *)

(** Scenario A: [thing1 arg1 { foo bar } arg2 { baz qux }]. *)
Definition scenarioA : Caddyfile.Dispenser :=
  directive [tok 1 "thing1"; tok 1 "arg1"; tok 1 "{";
             tok 2 "foo"; tok 2 "bar";
             tok 3 "}"; tok 3 "arg2"; tok 3 "{";
             tok 4 "baz"; tok 4 "qux";
             tok 5 "}"].

(** Scenario B: [thing2 a b { parameter value, number 100, flag }]. *)
Definition scenarioB : Caddyfile.Dispenser :=
  directive [tok 1 "thing2"; tok 1 "a"; tok 1 "b"; tok 1 "{";
             tok 2 "parameter"; tok 2 "value";
             tok 3 "number"; tok 3 "100";
             tok 4 "flag";
             tok 5 "}"].

(** Scenario B with the lines named after the Go fields. *)
Definition scenarioB_GoNames : Caddyfile.Dispenser :=
  directive [tok 1 "thing2"; tok 1 "a"; tok 1 "b"; tok 1 "{";
             tok 2 "Param"; tok 2 "value";
             tok 3 "Number"; tok 3 "100";
             tok 4 "Flag";
             tok 5 "}"].

(** A record with a nested record whose only field is a required
    argument, and a body whose [Server] line carries no argument. *)
Definition server : Type_ :=
  TNamed "server" (TStruct [tagged "Host" TString "$1"]).

Definition site : Type_ :=
  TNamed "site" (TStruct [untagged "Server" server]).

Definition site_tokens : list Caddyfile.Token :=
  [tok 1 "site"; tok 1 "{";
   tok 2 "Server";
   tok 3 "}"].

(** A record with a nested record that holds a boolean entry, and a body
    whose [Flag] line carries a trailing token. *)
Definition options : Type_ :=
  TNamed "options" (TStruct [untagged "Flag" TBool]).

Definition outer : Type_ :=
  TNamed "outer" (TStruct [untagged "Inner" options]).

Definition outer_tokens : list Caddyfile.Token :=
  [tok 1 "outer"; tok 1 "{";
   tok 2 "Inner"; tok 2 "{";
   tok 3 "Flag"; tok 3 "extra";
   tok 4 "}";
   tok 5 "}"].

(** The cursor inside a body: on token [cursor], at depth [nesting]. *)
Definition inside (tokens : list Caddyfile.Token) (cursor nesting : Z)
  : Caddyfile.Dispenser :=
  Caddyfile.mkDispenser tokens cursor nesting.

(** Two positional fields declared against the order of their indices. *)
Definition swapped : Type_ :=
  TNamed "swapped" (TStruct [tagged "Second" TString "$2";
                             tagged "First" TString "$1"]).

(** Two required positional fields, at declared indices 1 and 2. *)
Definition pair : Type_ :=
  TNamed "pair" (TStruct [tagged "A" TString "$1";
                          tagged "B" TString "$2"]).

(** A matcher field next to two fields that claim the same index. *)
Definition matcherDup : Type_ :=
  TNamed "matcherDup"
    (TStruct [tagged "Matcher" TypeCaddyModuleMap "$matcher";
              tagged "A" TString "$1";
              tagged "B" TString "$1"]).

(** ** Vocabulary of the further properties *)

(** [strconv.FormatInt(z, 10)]: the decimal numeral of [z]. *)
Definition FormatInt (z : Z) : string :=
  DecimalString.NilZero.string_of_int (Z.to_int z).

(** [x] is what the switch of [extractFields] makes of a field of [fs]: it
    holds that field and its position, and the role its tag gives it. *)
Definition fromField (fs : list StructField) (x : fieldInfo) : Prop :=
  fs !! value x = Some (field x)
  /\ (roleOf (value x) (field x) = Entry x
      \/ roleOf (value x) (field x) = BlockGroup x
      \/ roleOf (value x) (field x) = Argument x).

(** A field whose [{N}] or [$N] index does not parse. *)
Definition hasMalformedIndex (f : StructField) : bool :=
  match roleOf 0 f with Malformed _ => true | _ => false end.

(** The panic of [NumField] on a value that is no struct. *)
Definition NumField_panic : string :=
  "reflect: call of reflect.Value.NumField on non-struct Value".

(** The cursor behind the argument tokens [ws], read one after the other
    with [NextArg]; [None] when the tokens ahead are not these. *)
Fixpoint afterArgs {D : Type} `{Dispenser D} (d : D) (ws : list string)
  : option D :=
  match ws with
  | [] => Some d
  | w :: rest =>
      let '(isArg, d1) := NextArg d in
      if isArg && String.eqb (Val d1) w then afterArgs d1 rest else None
  end.

(** The record [val] with the strings [ws] stored in the fields [l], one
    by one. *)
Fixpoint assignArgs (val : Value) (l : list fieldInfo) (ws : list string)
  : Value :=
  match l, ws with
  | f :: l', w :: ws' => assignArgs (SetField val (value f) (VString w)) l' ws'
  | _, _ => val
  end.

(** A field of kind string whose type has no decoder of its own. *)
Definition stringField {D : Type} `{Host D} (f : fieldInfo) : Prop :=
  Kind (Typ (field f)) = Reflect.String
  /\ implementsUnmarshaler (Typ (field f)) = None.

(** The cursor stands on the first of the lines [keys] of a block opened at
    depth [nesting], each line a single token; the result is the cursor
    behind the block, [None] when the block is not made of these lines. *)
Fixpoint afterFlags {D : Type} `{Dispenser D} (d : D) (nesting : Z)
    (keys : list string) : option D :=
  match keys with
  | [] => None
  | k :: rest =>
      if String.eqb (Val d) k then
        let '(count, d1) := CountRemainingArgs d in
        if (0 <? count)%Z then None
        else
          let '(more, d2) := NextBlock d1 nesting in
          match rest with
          | [] => if more then None else Some d2
          | _ :: _ => if more then afterFlags d2 nesting rest else None
          end
      else None
  end.

(** The map [m] with each of [keys] set to true. *)
Definition withFlags (m : list (Value * Value)) (keys : list string)
  : list (Value * Value) :=
  fold_left (fun m k => assoc_set m (VString k) (VBool true)) keys m.

(** A type none of whose struct types declares a matcher field. *)
Fixpoint matcherFree (ty : Type_) : bool :=
  match ty with
  | TMap k e => matcherFree k && matcherFree e
  | TStruct fs =>
      negb (existsb isMatcherField fs)
      && (fix all (l : list StructField) : bool :=
            match l with
            | [] => true
            | mkStructField _ _ fty _ :: rest => matcherFree fty && all rest
            end) fs
  | TNamed _ u => matcherFree u
  | _ => true
  end.

(** A schema whose fields are of matcher-free types. *)
Definition matcherFreeInfo (info : structInfo) : Prop :=
  Forall (fun x => matcherFree (Typ (field x)) = true) (blockFields info)
  /\ Forall (fun x => matcherFree (Typ (field x)) = true) (otherFields info).

(** Records on which the further properties are tried: a malformed index
    between two fields of the same index; three block entries, which leave
    spare room in their array under the doubling rule, before an
    indexed-block field; a positional field and a block entry before an
    indexed-block field. *)
Definition badIndex : Type_ :=
  TNamed "badIndex" (TStruct [tagged "A" TString "$1";
                              tagged "B" TString "$second";
                              tagged "C" TString "$1"]).

Definition entriesThenGroup : Type_ :=
  TNamed "entriesThenGroup"
    (TStruct [untagged "A" TBool;
              untagged "B" TBool;
              untagged "C" TBool;
              tagged "D" (TMap TString TBool) "{1},optional"]).

Definition shadowed : Type_ :=
  TNamed "shadowed"
    (TStruct [tagged "A" TString "$1";
              untagged "Flag" TBool;
              tagged "Opts" (TMap TString TBool) "{2},optional"]).

(** The schema of [thing2]. *)
Definition thing2_info : structInfo :=
  mkStructInfo
    [mkFieldInfo (tagged "Param" TString "parameter") 2
       (blockFieldKind "parameter");
     mkFieldInfo (untagged "Number" (TInt WInt)) 3 (blockFieldKind "Number");
     mkFieldInfo (untagged "Flag" TBool) 4 (blockFieldKind "Flag")]
    [mkFieldInfo (tagged "Arg1" TString "$1") 0 (argumentKind 1 false);
     mkFieldInfo (tagged "Arg2" TString "$2,optional") 1
       (argumentKind 2 true)]
    None.

(** A growth rule that gives a fresh array no spare room. *)
Definition tight_runtime : Runtime := {| growslice_spare := fun _ => 0 |}.

(** ** Facts about types *)

Lemma fields_of_Kind (ty : Type_) (fs : list StructField) :
  fields_of ty = Some fs -> Kind ty = Reflect.Struct.
Proof.
  unfold fields_of.
  induction ty as [| w | w | w | | k IHk e IHe | l | n u IHu | k r];
    simpl; try discriminate; auto.
Qed.

Lemma Kind_fields_of (ty : Type_) :
  Kind ty = Reflect.Struct -> exists fs, fields_of ty = Some fs.
Proof.
  unfold fields_of.
  induction ty as [| w | w | w | | k IHk e IHe | l | n u IHu | k r];
    simpl; try discriminate; eauto.
  - destruct w; discriminate.
  - destruct w; discriminate.
  - destruct w; discriminate.
  - destruct k; discriminate.
Qed.

Lemma IntWidth_eqb_eq (a b : IntWidth) : IntWidth_eqb a b = true -> a = b.
Proof. destruct a, b; simpl; congruence. Qed.

Lemma FloatWidth_eqb_eq (a b : FloatWidth) : FloatWidth_eqb a b = true -> a = b.
Proof. destruct a, b; simpl; congruence. Qed.

Lemma Kind_eqb_eq (a b : Reflect.Kind) :
  Reflect.Kind_eqb a b = true <-> a = b.
Proof.
  unfold Reflect.Kind_eqb.
  destruct (Reflect.Kind_eq_dec a b); split; congruence.
Qed.

(** Identical types have the same kind. *)
Lemma Type_eqb_Kind (a b : Type_) : Type_eqb a b = true -> Kind a = Kind b.
Proof.
  revert b.
  induction a as [| w | w | w | | k IHk e IHe | l | n u IHu | k r];
    intros [| w' | w' | w' | | k' e' | l' | n' u' | k' r'];
    simpl; try discriminate; auto.
  - intros E. apply IntWidth_eqb_eq in E. now subst.
  - intros E. apply IntWidth_eqb_eq in E. now subst.
  - intros E. apply FloatWidth_eqb_eq in E. now subst.
  - intros E. apply andb_prop in E as [_ E]. auto.
  - intros E. apply andb_prop in E as [E _]. now apply Kind_eqb_eq.
Qed.

(** A value is assignable only to a type of its own kind. *)
Lemma AssignableTo_Kind (V T : Type_) :
  AssignableTo V T = true -> Kind V = Kind T.
Proof.
  unfold AssignableTo, directlyAssignable.
  destruct (Type_eqb V T) eqn:E1; [intros _; now apply Type_eqb_Kind |].
  destruct (Type_eqb T V) eqn:E2;
    [intros _; symmetry; now apply Type_eqb_Kind |].
  destruct (Reflect.Kind_eqb (Kind T) (Kind V)) eqn:E3.
  - intros _. symmetry. now apply Kind_eqb_eq.
  - rewrite orb_true_r. discriminate.
Qed.

(** No struct type is assignable to [caddy.ModuleMap]. *)
Lemma struct_not_ModuleMap (ty : Type_) :
  Kind ty = Reflect.Struct -> AssignableTo ty TypeCaddyModuleMap = false.
Proof.
  intros K. destruct (AssignableTo ty TypeCaddyModuleMap) eqn:E; auto.
  apply AssignableTo_Kind in E. rewrite K in E. discriminate.
Qed.

(** ** The matcher field *)

Section MatcherFacts.
Context `{Runtime}.

(** Once set, [info.matcher] stays set; a matcher field sets it. *)
Lemma extractField_matcher (st st' : extractState) (i : nat)
    (f : StructField) :
  extractField st i f = Ok st' ->
  isMatcherField f = true \/ st_matcher st <> None ->
  st_matcher st' <> None.
Proof.
  unfold extractField, isMatcherField.
  destruct (IsExported f); simpl.
  2:{ intros [= <-] [E | E]; [discriminate | exact E]. }
  destruct (String.eqb (Tag_Get (Tag f) "caddyfile") "") eqn:Etag.
  { apply String.eqb_eq in Etag. rewrite Etag. simpl.
    destruct (append _ _ _) as [s' h'].
    intros [= <-] [E | E]; [discriminate | exact E]. }
  destruct (String.eqb (hd "" (Split (Tag_Get (Tag f) "caddyfile"))) "-")
    eqn:Edash.
  { apply String.eqb_eq in Edash. rewrite Edash. simpl.
    intros [= <-] [E | E]; [discriminate | exact E]. }
  destruct (String.eqb (hd "" (Split (Tag_Get (Tag f) "caddyfile")))
              "$matcher") eqn:Em.
  { intros [= <-] _. simpl. discriminate. }
  intros E [E' | E']; [discriminate |].
  destruct (blockIxRe _).
  - destruct (Atoi _); [| discriminate].
    destruct (append _ _ _) as [s' h']. injection E as <-. exact E'.
  - destruct (HasPrefix_dollar _).
    + destruct (Atoi _); [| discriminate].
      destruct (append _ _ _) as [s' h']. injection E as <-. exact E'.
    + destruct (append _ _ _) as [s' h']. injection E as <-. exact E'.
Qed.

Lemma extractLoop_matcher (fs : list StructField) :
  forall (i : nat) (st st' : extractState),
    extractLoop fs i st = Ok st' ->
    existsb isMatcherField fs = true \/ st_matcher st <> None ->
    st_matcher st' <> None.
Proof.
  induction fs as [| f fs IH]; simpl; intros i st st' E Hm.
  - injection E as <-. destruct Hm as [Hm | Hm]; [discriminate | exact Hm].
  - destruct (extractField st i f) as [st1 | e] eqn:E1; [| discriminate].
    apply (IH _ _ _ E).
    destruct Hm as [Hm | Hm].
    + apply orb_prop in Hm as [Hm | Hm]; [right | now left].
      apply (extractField_matcher _ _ _ _ E1). now left.
    + right. apply (extractField_matcher _ _ _ _ E1). now right.
Qed.

(** Extraction never runs out of fuel, and panics only on a non-struct. *)
Lemma extractFields_struct (r : reflectValue) (fs : list StructField) :
  fields_of (t r) = Some fs ->
  exists x, extractFields r = Return x.
Proof.
  intros E. unfold extractFields. rewrite E.
  destruct (extractLoop fs 0 extract_init); [| eauto].
  destruct (validateOptional _ _ _); [eauto |].
  destruct (validateUnique _ _); eauto.
Qed.

(** A schema extracted from a record that declares a matcher field has its
    matcher set. *)
Lemma extractFields_matcher (r : reflectValue) (info : structInfo) :
  declaresMatcher (t r) = true ->
  extractFields r = Return (Ok info) ->
  matcher info <> None.
Proof.
  unfold declaresMatcher, extractFields.
  destruct (fields_of (t r)) as [fs |]; [| discriminate].
  intros Hm.
  destruct (extractLoop fs 0 extract_init) as [st | e] eqn:E; [| discriminate].
  destruct (validateOptional _ _ _); [discriminate |].
  destruct (validateUnique _ _); [discriminate |].
  intros [= <-]. simpl.
  apply (extractLoop_matcher _ _ _ _ E). now left.
Qed.
End MatcherFacts.

(** C9.  A record type that declares a matcher field, decoded through
    [Unmarshal] (the entry point without matcher-token support), fails at
    once: for every cursor, every host and any fuel, the call returns an
    error, the cursor is the one it was given (no argument token and no block
    consumed) and the target holds what it held (no field modified). *)
Theorem C9_matcher_without_support_fails_at_once
    {D : Type} `{Runtime} `{Dispenser D} `{Host D}
    (fuel : nat) (d : D) (r : reflectValue) :
  declaresMatcher (t r) = true ->
  exists e, Unmarshal (S fuel) d r = Return (Some e, d, v r).
Proof.
  intros Hm.
  assert (exists fs, fields_of (t r) = Some fs) as [fs Hfs].
  { unfold declaresMatcher in Hm. destruct (fields_of (t r)); [eauto | discriminate]. }
  unfold Unmarshal, newReflectValue.
  rewrite (fields_of_Kind _ _ Hfs). simpl.
  destruct (extractFields_struct r fs Hfs) as [[info | e] E]; rewrite E; simpl.
  - pose proof (extractFields_matcher r info Hm E) as Hinfo.
    destruct (matcher info); [| congruence]. simpl. eauto.
  - eauto.
Qed.

Lemma C9_witness :
  declaresMatcher (t (fresh thing3)) = true /\
  exists e,
    @Unmarshal _ go_runtime caddy_dispenser (bare_host _) 1
       (directive [tok 1 "thing3"; tok 1 "/*"; tok 1 "arg1"])
       (fresh thing3)
    = Return (Some e,
              directive [tok 1 "thing3"; tok 1 "/*"; tok 1 "arg1"],
              v (fresh thing3)).
Proof.
  split; [reflexivity |].
  apply (@C9_matcher_without_support_fails_at_once
           _ go_runtime caddy_dispenser (bare_host _) 0).
  reflexivity.
Defined.

(** ** Fuel

    More fuel never changes what a call does: once a call returns or panics,
    it does the same on any larger fuel. *)

Lemma settled_refl {A : Type} (a : outcome A) : settled a a.
Proof. now right. Qed.

Section FuelFacts.
Context {D : Type} `{Runtime} `{Dispenser D} `{Host D}.

Lemma bind_settled {A B : Type} (a b : outcome A) (k k' : A -> outcome B) :
  settled a b -> (forall x, settled (k x) (k' x)) ->
  settled (bind a k) (bind b k').
Proof.
  intros [-> | ->] Hk; [now left |].
  destruct b; simpl; [apply Hk | now right | now right].
Qed.

Ltac settle IH1 IH2 IH3 IH4 IH5 :=
  repeat first
    [ apply settled_refl
    | apply IH1 | apply IH2 | apply IH3 | apply IH4 | apply IH5
    | apply bind_settled; [| intro; cbv beta]
    | match goal with
      | |- settled (let '(_, _) := ?x in _) _ => destruct x
      | |- settled (match ?x with _ => _ end) _ => destruct x
      | |- settled (if ?x then _ else _) _ => destruct x
      end ].

Lemma fuel_settled (n : nat) :
  forall m, n <= m ->
    (forall http d r, settled (unmarshal n http d r) (unmarshal m http d r))
    /\ (forall http info ty hb i d val,
          settled (unmarshal_loop n http info ty hb i d val)
                  (unmarshal_loop m http info ty hb i d val))
    /\ (forall http d nesting r,
          settled (unmarshalBlock n http d nesting r)
                  (unmarshalBlock m http d nesting r))
    /\ (forall http isMap info nesting ty d val,
          settled (unmarshalBlock_loop n http isMap info nesting ty d val)
                  (unmarshalBlock_loop m http isMap info nesting ty d val))
    /\ (forall http isMap info ty d val,
          settled (parse n http isMap info ty d val)
                  (parse m http isMap info ty d val)).
Proof.
  induction n as [| n IH]; intros m Hle.
  - repeat split; intros; now left.
  - destruct m as [| m]; [lia |].
    destruct (IH m ltac:(lia)) as (IH1 & IH2 & IH3 & IH4 & IH5).
    repeat split; intros; simpl.
    all: settle IH1 IH2 IH3 IH4 IH5.
Qed.

Lemma unmarshal_fuel (n k : nat) (http : bool) (d : D) (r : reflectValue)
    (o : outcome reply) :
  unmarshal n http d r = o -> o <> OutOfFuel ->
  unmarshal (n + k) http d r = o.
Proof.
  intros E Ho.
  destruct (fuel_settled n (n + k) ltac:(lia)) as (M & _).
  destruct (M http d r) as [M' | M']; congruence.
Qed.

Lemma parse_fuel (n k : nat) (http isMap : bool) (info : structInfo)
    (ty : Type_) (d : D) (val : Value) (o : outcome reply) :
  parse n http isMap info ty d val = o -> o <> OutOfFuel ->
  parse (n + k) http isMap info ty d val = o.
Proof.
  intros E Ho.
  destruct (fuel_settled n (n + k) ltac:(lia)) as (_ & _ & _ & _ & M).
  destruct (M http isMap info ty d val) as [M' | M']; congruence.
Qed.

Lemma Unmarshal_fuel (n k : nat) (d : D) (r : reflectValue)
    (o : outcome reply) :
  Unmarshal n d r = o -> o <> OutOfFuel -> Unmarshal (n + k) d r = o.
Proof.
  unfold Unmarshal. destruct (newReflectValue r); [| auto].
  apply unmarshal_fuel.
Qed.

Lemma UnmarshalForHTTP_fuel (n k : nat) (d : D) (r : reflectValue)
    (o : outcome reply) :
  UnmarshalForHTTP n d r = o -> o <> OutOfFuel ->
  UnmarshalForHTTP (n + k) d r = o.
Proof.
  unfold UnmarshalForHTTP. destruct (newReflectValue r); [| auto].
  apply unmarshal_fuel.
Qed.

(** ** The loop over the lines of a block

    Whatever [parse] returns, the loop of [unmarshalBlock] returns nil. *)
Lemma unmarshalBlock_loop_nil (fuel : nat) :
  forall http isMap info nesting ty d val err d' val',
    unmarshalBlock_loop fuel http isMap info nesting ty d val
    = Return (err, d', val') ->
    err = None.
Proof.
  induction fuel as [| fuel IH]; simpl; intros * E; [discriminate |].
  destruct (parse fuel http isMap info ty d val) as [[[e d1] val1] | |];
    simpl in E; try discriminate.
  destruct e; [now injection E as <- _ _ |].
  destruct (NextBlock d1 nesting) as [[] d2].
  - eapply IH, E.
  - now injection E as <- _ _.
Qed.

(** X14.  The only errors [unmarshalBlock] returns are raised before the
    first line is read, the cursor and the target being what they were: no
    error of a line of the block is ever returned. *)
Lemma unmarshalBlock_errors (fuel : nat) (http : bool) (d : D)
    (nesting : Z) (r : reflectValue) (e : error) (d' : D) (val' : Value) :
  unmarshalBlock fuel http d nesting r = Return (Some e, d', val') ->
  d' = d /\ val' = v r /\
  ((exists e', e = ErrCannotExtractFields e')
   \/ e = ErrExpectedStructOrMap (t r)).
Proof.
  destruct fuel as [| fuel]; simpl; [discriminate |].
  intros E.
  assert (forall isMap info,
            unmarshalBlock_loop fuel http isMap info nesting (t r) d (v r)
            <> Return (Some e, d', val')) as Hloop.
  { intros isMap info E'. apply unmarshalBlock_loop_nil in E'. discriminate. }
  destruct (Kind (t r));
    try (injection E as <- <- <-; repeat split; now right).
  - now apply Hloop in E.
  - destruct (extractFields r) as [[info | e'] | |]; simpl in E;
      try discriminate.
    + now apply Hloop in E.
    + injection E as <- <- <-. repeat split. left. eauto.
Qed.
End FuelFacts.

(** ** Schema extraction and the declared lists *)

Section ExtractionFacts.
Context `{Runtime}.

Lemma extractField_role (st : extractState) (i : nat) (f : StructField) :
  extractField st i f
  = match roleOf i f with
    | Skipped => Ok st
    | Entry x =>
        let '(s', h') := append (hp st) (st_blockFields st) x in
        Ok (mkExtractState s' (st_otherFields st) (st_matcher st) h')
    | MatcherRole x =>
        Ok (mkExtractState (st_blockFields st) (st_otherFields st) (Some x)
                           (hp st))
    | BlockGroup x =>
        let '(s', h') := append (hp st) (st_blockFields st) x in
        Ok (mkExtractState (st_blockFields st) s' (st_matcher st) h')
    | Argument x =>
        let '(s', h') := append (hp st) (st_otherFields st) x in
        Ok (mkExtractState (st_blockFields st) s' (st_matcher st) h')
    | Malformed e => Err e
    end.
Proof.
  unfold extractField, roleOf.
  repeat match goal with
         | |- context [if ?c then _ else _] => destruct c
         | |- context [match ?c with Some _ => _ | None => _ end] => destruct c
         end; reflexivity.
Qed.

Lemma wf_elems_length (h : heap) (s : slice) :
  wf h s -> length (elems h s) = len s.
Proof.
  intros [Hle Ha]. unfold elems.
  destruct (Nat.eq_dec (cap s) 0) as [E | E].
  - assert (len s = 0) as -> by lia. reflexivity.
  - destruct Ha as (a & -> & Hlen); [lia |]. simpl.
    rewrite length_take. lia.
Qed.

(** What [append] does: the result reads the old elements and the new one;
    any other slice reads what it read, unless it sits on the same array,
    the write is in place and it is longer than the slice appended to. *)
Lemma append_spec (h h' : heap) (s s' : slice) (x : fieldInfo) :
  wf h s ->
  append h s x = (s', h') ->
  wf h' s'
  /\ elems h' s' = elems h s ++ [x]
  /\ 0 < cap s'
  /\ len s' = S (len s)
  /\ ((len s < cap s /\ arr s' = arr s /\ cap s' = cap s)
      \/ (~ len s < cap s /\ arr s' = length h))
  /\ (forall s2, 0 < cap s2 -> wf h s2 -> arr s2 < length h)
  /\ forall s2,
       wf h s2 ->
       (len s < cap s -> 0 < cap s2 -> arr s2 = arr s -> len s2 <= len s) ->
       wf h' s2 /\ elems h' s2 = elems h s2.
Proof.
  intros Hwf. pose proof (wf_elems_length _ _ Hwf) as Hlen.
  destruct Hwf as [Hle Ha]. unfold append.
  assert (forall s2, 0 < cap s2 -> wf h s2 -> arr s2 < length h) as Hin.
  { intros s2 Hc [_ (a & Ea & _)]; [exact Hc |].
    eapply lookup_lt_Some, Ea. }
  destruct (Nat.ltb_spec (len s) (cap s)) as [Hlt | Hge]; intros [= <- <-];
    simpl.
  - (* in place *)
    destruct Ha as (a & Ea & Hla); [lia |].
    rewrite Ea. simpl.
    assert (arr s < length h) as Harr by (eapply lookup_lt_Some, Ea).
    assert (take (S (len s)) (take (len s) a ++ x :: drop (S (len s)) a)
            = take (len s) a ++ [x]) as Htake.
    { rewrite take_app_ge by (rewrite length_take; lia).
      rewrite length_take, Nat.min_l by lia.
      replace (S (len s) - len s) with 1 by lia. reflexivity. }
    repeat split.
    + simpl. lia.
    + simpl. intros _. eexists. split.
      * apply list_lookup_insert_eq. exact Harr.
      * rewrite length_app, length_take. simpl. lia.
    + unfold elems. simpl. rewrite list_lookup_insert_eq by exact Harr. simpl.
      rewrite Ea. simpl. exact Htake.
    + lia.
    + left. auto.
    + exact Hin.
    + destruct H0 as [Hle2 Ha2]. exact Hle2.
    + destruct H0 as [Hle2 Ha2]. intros Hc. destruct (Ha2 Hc) as (a2 & Ea2 & Hl2).
      destruct (Nat.eq_dec (arr s2) (arr s)) as [Eq | Ne].
      * rewrite Eq in *. rewrite Ea in Ea2. injection Ea2 as <-.
        eexists. split; [apply list_lookup_insert_eq; exact Harr |].
        rewrite length_app, length_take. simpl. rewrite length_drop. lia.
      * exists a2. split; [| exact Hl2].
        rewrite list_lookup_insert_ne by congruence. exact Ea2.
    + destruct H0 as [Hle2 Ha2]. unfold elems.
      destruct (Nat.eq_dec (cap s2) 0) as [E0 | E0].
      { assert (len s2 = 0) as -> by lia. reflexivity. }
      destruct (Ha2 ltac:(lia)) as (a2 & Ea2 & Hl2).
      destruct (Nat.eq_dec (arr s2) (arr s)) as [Eq | Ne].
      * specialize (H1 Hlt ltac:(lia) Eq).
        rewrite Eq in *. rewrite Ea in Ea2. injection Ea2 as <-.
        rewrite list_lookup_insert_eq by exact Harr. rewrite Ea. simpl.
        rewrite take_app_le by (rewrite length_take; lia).
        rewrite take_take. f_equal. lia.
      * rewrite list_lookup_insert_ne by congruence. reflexivity.
  - (* a fresh array *)
    repeat split.
    + simpl. lia.
    + simpl. intros _. eexists. split.
      * apply list_lookup_middle. reflexivity.
      * rewrite length_app, Hlen. simpl. lia.
    + unfold elems at 1. simpl.
      rewrite list_lookup_middle by reflexivity. simpl.
      apply take_ge. rewrite length_app, Hlen. simpl. lia.
    + lia.
    + right. split; [lia | reflexivity].
    + exact Hin.
    + destruct H0 as [Hle2 Ha2]. exact Hle2.
    + destruct H0 as [Hle2 Ha2]. intros Hc.
      destruct (Ha2 Hc) as (a2 & Ea2 & Hl2).
      exists a2. split; [| exact Hl2].
      rewrite lookup_app_l by (eapply lookup_lt_Some, Ea2). exact Ea2.
    + destruct H0 as [Hle2 Ha2]. unfold elems.
      destruct (Nat.eq_dec (cap s2) 0) as [E0 | E0].
      { assert (len s2 = 0) as -> by lia. reflexivity. }
      destruct (Ha2 ltac:(lia)) as (a2 & Ea2 & Hl2).
      rewrite lookup_app_l by (eapply lookup_lt_Some, Ea2). reflexivity.
Qed.

Lemma represents_init : represents extract_init ([], [], None) false.
Proof.
  unfold represents, extract_init, wf, nil_slice. simpl.
  repeat split; try lia; try reflexivity.
Qed.

(** One field: the state after [extractField] reads the lists after
    [declareField], provided a block-entry field comes before every
    indexed-block field. *)
Ltac pack := split; [| split; [| split; [| split; [| split]]]].

Lemma extractField_represents (st : extractState) (ls : lists) (seen : bool)
    (i : nat) (f : StructField) :
  represents st ls seen ->
  match roleOf i f with Entry _ => seen = false | _ => True end ->
  match extractField st i f, declareField ls (roleOf i f) with
  | Ok st', Ok ls' =>
      represents st' ls'
        (match roleOf i f with BlockGroup _ => true | _ => seen end)
  | Err e, Err e' => e = e'
  | _, _ => False
  end.
Proof.
  rewrite extractField_role.
  destruct ls as [[bf other] m], st as [sb so sm h]. unfold represents. simpl.
  intros (Hm & Wb & Wo & Eb & Eo & Hsh) Hseen.
  destruct (roleOf i f) as [| x | x | x | x | e]; simpl.
  - pack; assumption.
  - (* a block entry: blockFields = append(blockFields, x) *)
    destruct (append h sb x) as [s' h'] eqn:E.
    destruct (append_spec _ _ _ _ _ Wb E)
      as (W' & E' & Hc & Hl & Hwhere & Hin & Hframe).
    destruct (Hframe so Wo) as [Wo' Eo'].
    { intros Hlt Hco Harr.
      destruct Hsh as [Hs _]; [lia | exact Hco | congruence | congruence]. }
    simpl. pack; try assumption; try congruence.
    intros _ Hco Harr. exfalso.
    destruct Hwhere as [(Hlt & Ha & Hcap) | (Hge & Ha)].
    + destruct Hsh as [Hs _]; [lia | exact Hco | congruence | congruence].
    + pose proof (Hin so Hco Wo). lia.
  - pack; try assumption; reflexivity.
  - (* an indexed block: otherFields = append(blockFields, x) *)
    destruct (append h sb x) as [s' h'] eqn:E.
    destruct (append_spec _ _ _ _ _ Wb E)
      as (W' & E' & Hc & Hl & Hwhere & Hin & Hframe).
    destruct (Hframe sb Wb) as [Wb' Eb']; [lia |].
    simpl. pack; try assumption; try congruence.
    intros _ _ _. split; [reflexivity | lia].
  - (* an argument: otherFields = append(otherFields, x) *)
    destruct (append h so x) as [s' h'] eqn:E.
    destruct (append_spec _ _ _ _ _ Wo E)
      as (W' & E' & Hc & Hl & Hwhere & Hin & Hframe).
    destruct (Hframe sb Wb) as [Wb' Eb'].
    { intros Hlt Hcb Harr.
      destruct Hsh as [_ Hs]; [exact Hcb | lia | exact Harr | lia]. }
    simpl. pack; try assumption; try congruence.
    intros Hcb _ Harr.
    destruct Hwhere as [(Hlt & Ha & Hcap) | (Hge & Ha)].
    + destruct Hsh as [Hs Hs']; [exact Hcb | lia | congruence |].
      split; [assumption | lia].
    + pose proof (Hin sb Hcb Wb). lia.
  - reflexivity.
Qed.

Lemma extractLoop_represents (fs : list StructField) :
  forall (i : nat) (st : extractState) (ls : lists) (seen : bool),
    represents st ls seen ->
    entriesFirst seen fs i = true ->
    match extractLoop fs i st, declareLoop fs i ls with
    | Ok st', Ok ls' => exists seen', represents st' ls' seen'
    | Err e, Err e' => e = e'
    | _, _ => False
    end.
Proof.
  induction fs as [| f fs IH]; simpl; intros i st ls seen Hrep Hfirst.
  - eauto.
  - pose proof (extractField_represents st ls seen i f Hrep) as Hstep.
    destruct ls as [[bf other] m].
    destruct (roleOf i f) as [| x | x | x | x | e] eqn:Hrole; simpl in *.
    + specialize (Hstep I).
      destruct (extractField st i f); [eapply IH; eauto | contradiction].
    + apply andb_prop in Hfirst as [Hseen Hfirst].
      apply negb_true_iff in Hseen. specialize (Hstep Hseen).
      destruct (extractField st i f); [eapply IH; eauto | contradiction].
    + specialize (Hstep I).
      destruct (extractField st i f); [eapply IH; eauto | contradiction].
    + specialize (Hstep I).
      destruct (extractField st i f); [eapply IH; eauto | contradiction].
    + specialize (Hstep I).
      destruct (extractField st i f); [eapply IH; eauto | contradiction].
    + specialize (Hstep I).
      destruct (extractField st i f); [contradiction | exact Hstep].
Qed.

(** The insertion sort leaves a list alone when no element is less than
    another. *)
Lemma sink_cons {A : Type} (less : A -> A -> bool) (x : A) (acc : list A) :
  (forall y, In y acc -> less x y = false) ->
  sink less x acc = x :: acc.
Proof.
  destruct acc as [| y acc]; simpl; [reflexivity |].
  intros Hless. now rewrite Hless by auto.
Qed.

Lemma insertionSort_id {A : Type} (less : A -> A -> bool) (l : list A) :
  (forall x y, In x l -> In y l -> less x y = false) ->
  insertionSort less l = l.
Proof.
  intros Hless. unfold insertionSort.
  assert (forall l' acc,
             incl l' l -> incl acc l ->
             fold_left (fun acc x => sink less x acc) l' acc
             = rev l' ++ acc) as Hfold.
  { induction l' as [| x l' IH]; simpl; intros acc Hl' Hacc; [reflexivity |].
    rewrite sink_cons.
    - rewrite IH.
      + now rewrite <- app_assoc.
      + intros z Hz. apply Hl'. now right.
      + intros z [<- | Hz]; [apply Hl'; now left | now apply Hacc].
    - intros y Hy. apply Hless; [apply Hl'; now left | now apply Hacc]. }
  rewrite Hfold.
  - rewrite app_nil_r. apply rev_involutive.
  - apply incl_refl.
  - intros z [].
Qed.

Lemma roleOf_Entry (i : nat) (f : StructField) (x : fieldInfo) :
  roleOf i f = Entry x -> isBlockField x = true.
Proof.
  unfold roleOf.
  repeat match goal with
         | |- context [if ?c then _ else _] => destruct c
         | |- context [match ?c with Some _ => _ | None => _ end] => destruct c
         end; try discriminate; now intros [= <-].
Qed.

Lemma declareLoop_entries (fs : list StructField) :
  forall i bf other m bf' other' m',
    declareLoop fs i (bf, other, m) = Ok (bf', other', m') ->
    Forall (fun x => isBlockField x = true) bf ->
    Forall (fun x => isBlockField x = true) bf'.
Proof.
  induction fs as [| f fs IH]; simpl;
    intros i bf other m bf' other' m' E Hbf.
  - inversion E; subst; assumption.
  - destruct (roleOf i f) as [| x | x | x | x | e] eqn:Hrole; simpl in E;
      try discriminate; try (eapply IH; [exact E | exact Hbf]).
    eapply IH; [exact E |].
    apply Forall_app. split; [exact Hbf |].
    constructor; [| constructor]. eapply roleOf_Entry, Hrole.
Qed.

Lemma sort_Slice_entries (h : heap) (s : slice) :
  Forall (fun x => isBlockField x = true) (elems h s) ->
  sort_Slice h s (fun a b => (index a <? index b)%Z) = h.
Proof.
  unfold sort_Slice, elems. intros Hall.
  destruct (h !! arr s) as [a |] eqn:Ea; [| reflexivity].
  simpl in Hall. rewrite insertionSort_id.
  - rewrite take_drop. apply list_insert_id, Ea.
  - intros x y Hx Hy.
    rewrite Forall_forall in Hall.
    pose proof (Hall x ltac:(now apply list_elem_of_In)) as Kx.
    pose proof (Hall y ltac:(now apply list_elem_of_In)) as Ky.
    unfold isBlockField in Kx, Ky. unfold index.
    destruct (kind x); try discriminate. destruct (kind y); try discriminate.
    reflexivity.
Qed.

(** Under [entriesFirst], schema extraction is what the declared lists say,
    however the runtime grows its slices. *)
Lemma extractFields_declared (r : reflectValue) (fs : list StructField) :
  fields_of (t r) = Some fs ->
  entriesFirst false fs 0 = true ->
  extractFields r = Return (declaredSchema fs).
Proof.
  intros Hfs Hfirst. unfold extractFields, declaredSchema. rewrite Hfs.
  pose proof (extractLoop_represents fs 0 extract_init ([], [], None) false
                represents_init Hfirst) as Hloop.
  destruct (extractLoop fs 0 extract_init) as [st | e];
    destruct (declareLoop fs 0 ([], [], None)) as [[[bf other] m] | e'] eqn:Ed;
    try contradiction; [| now subst].
  destruct Hloop as (seen & Hm & Wb & Wo & Eb & Eo & _).
  rewrite sort_Slice_entries.
  - rewrite Eb, Eo, Hm. unfold validated. simpl.
    destruct (validateOptional other 0 false); [reflexivity |].
    destruct (validateUnique other ∅); reflexivity.
  - rewrite Eb. eapply declareLoop_entries; [exact Ed | constructor].
Qed.
End ExtractionFacts.

(** ** The two validations *)

Lemma offendingAfter_false (l : list fieldInfo) (i : nat) :
  offendingAfter false l i <-> offending l i.
Proof.
  unfold offendingAfter, offending. split.
  - intros (f & Hf & Ho & [Hd | Hj]); [discriminate | eauto].
  - intros (f & Hf & Ho & Hj). eauto.
Qed.

Lemma validateOptional_spec (l : list fieldInfo) :
  forall (k : nat) (found : bool),
    match validateOptional l k found with
    | Some e =>
        exists i, e = ErrNonOptionalFollowsOptional (k + i)
                  /\ offendingAfter found l i
                  /\ forall i', i' < i -> ~ offendingAfter found l i'
    | None => forall i, ~ offendingAfter found l i
    end.
Proof.
  induction l as [| f l IH]; simpl; intros k found.
  - intros i (g & Hg & _). discriminate.
  - destruct (found && negb (optional f)) eqn:Hhit.
    + apply andb_prop in Hhit as [-> Hopt]. apply negb_true_iff in Hopt.
      exists 0. rewrite Nat.add_0_r. split; [reflexivity |]. split.
      * exists f. auto.
      * intros i' Hi'. lia.
    + specialize (IH (S k) (if found then true else optional f)).
      assert (forall i,
                 offendingAfter found (f :: l) (S i)
                 <-> offendingAfter (if found then true else optional f) l i)
        as Hshift.
      { intros i. unfold offendingAfter. simpl. split.
        - intros (g & Hg & Ho & [-> | (j & g' & Hj & Hg' & Ho')]).
          + exists g. auto.
          + exists g. repeat split; auto.
            destruct j as [| j]; simpl in Hg'.
            * injection Hg' as <-. rewrite Ho'. left. now destruct found.
            * right. exists j, g'. repeat split; auto. lia.
        - intros (g & Hg & Ho & [Hf | (j & g' & Hj & Hg' & Ho')]).
          + exists g. repeat split; auto.
            destruct found; [now left |].
            right. exists 0, f. repeat split; auto. lia.
          + exists g. repeat split; auto.
            right. exists (S j), g'. repeat split; auto. lia. }
      assert (~ offendingAfter found (f :: l) 0) as Hzero.
      { intros (g & Hg & Ho & [-> | (j & _ & Hj & _)]); [| lia].
        simpl in Hg. injection Hg as <-. rewrite Ho in Hhit. discriminate. }
      destruct (validateOptional l (S k) _) as [e |].
      * destruct IH as (i & -> & Hoff & Hmin).
        exists (S i). split; [f_equal; lia |]. split.
        -- now apply Hshift.
        -- intros [| i'] Hi'; [exact Hzero |].
           rewrite Hshift. apply Hmin. lia.
      * intros [| i]; [exact Hzero |]. rewrite Hshift. apply IH.
Qed.

Lemma validateUnique_spec (l : list fieldInfo) :
  forall (used : gset Z),
    match validateUnique l used with
    | Some e =>
        exists j g, l !! j = Some g
                    /\ e = ErrDuplicateFieldIndex (index g)
                    /\ (index g ∈ used
                        \/ exists i f, i < j /\ l !! i = Some f
                                       /\ index f = index g)
    | None =>
        (forall i f, l !! i = Some f -> index f ∉ used)
        /\ forall i j, ~ sameIndex l i j
    end.
Proof.
  induction l as [| f l IH]; simpl; intros used.
  - split; [intros i f Hf; discriminate |].
    intros i j (f & g & _ & Hf & _). discriminate.
  - destruct (bool_decide (index f ∈ used)) eqn:Hin.
    + apply bool_decide_eq_true in Hin.
      exists 0, f. auto.
    + apply bool_decide_eq_false in Hin.
      specialize (IH ({[index f]} ∪ used)).
      destruct (validateUnique l _) as [e |].
      * destruct IH as (j & g & Hg & -> & Hdup).
        exists (S j), g. repeat split; auto.
        destruct Hdup as [Hu | (i & f' & Hi & Hf' & Hix)].
        -- apply elem_of_union in Hu as [Hu | Hu]; [| now left].
           apply elem_of_singleton in Hu. right.
           exists 0, f. repeat split; auto. lia.
        -- right. exists (S i), f'. repeat split; auto. lia.
      * destruct IH as [Hfresh Hnodup]. split.
        -- intros [| i] g Hg; simpl in Hg.
           ++ now injection Hg as <-.
           ++ specialize (Hfresh i g Hg). set_solver.
        -- intros i j (f1 & f2 & Hij & H1 & H2 & Hix).
           destruct j as [| j]; [lia |]. simpl in H2.
           destruct i as [| i]; simpl in H1.
           ++ injection H1 as <-.
              specialize (Hfresh j f2 H2). rewrite Hix in Hfresh. set_solver.
           ++ apply (Hnodup i j). exists f1, f2. repeat split; auto. lia.
Qed.

Section DeclaredFacts.
Context `{Runtime}.

Lemma declareLoop_positionals (fs : list StructField) :
  forall i bf other m,
    positionalOnly fs i = true ->
    exists bf' m',
      declareLoop fs i (bf, other, m)
      = Ok (bf', other ++ positionals fs i, m').
Proof.
  induction fs as [| f fs IH]; simpl; intros i bf other m Hpos.
  - exists bf, m. now rewrite app_nil_r.
  - destruct (roleOf i f) as [| x | x | x | x | e]; simpl;
      try discriminate; try (apply IH; exact Hpos).
    destruct (IH (S i) bf (other ++ [x]) m Hpos) as (bf' & m' & E).
    exists bf', m'. rewrite E. now rewrite <- app_assoc.
Qed.

Lemma positionalOnly_entriesFirst (fs : list StructField) :
  forall i, positionalOnly fs i = true -> entriesFirst false fs i = true.
Proof.
  induction fs as [| f fs IH]; simpl; intros i Hpos; [reflexivity |].
  destruct (roleOf i f); try discriminate; simpl; auto.
Qed.

(** For a record with positional fields only, the merged list is the list
    of its positional fields in declaration order. *)
Lemma extractFields_positionals (r : reflectValue) (fs : list StructField) :
  fields_of (t r) = Some fs ->
  positionalOnly fs 0 = true ->
  exists bf m,
    extractFields r = Return (validated (bf, positionals fs 0, m)).
Proof.
  intros Hfs Hpos.
  rewrite (extractFields_declared r fs Hfs)
    by now apply positionalOnly_entriesFirst.
  unfold declaredSchema.
  destruct (declareLoop_positionals fs 0 [] [] None Hpos) as (bf & m & ->).
  eauto.
Qed.

(** The optional-suffix check cites the position of the first offender. *)
Lemma extractFields_offender (r : reflectValue) (fs : list StructField)
    (i : nat) :
  fields_of (t r) = Some fs ->
  positionalOnly fs 0 = true ->
  offending (positionals fs 0) i ->
  (forall i', i' < i -> ~ offending (positionals fs 0) i') ->
  extractFields r = Return (Err (ErrNonOptionalFollowsOptional i)).
Proof.
  intros Hfs Hpos Hoff Hmin.
  destruct (extractFields_positionals r fs Hfs Hpos) as (bf & m & ->).
  unfold validated.
  pose proof (validateOptional_spec (positionals fs 0) 0 false) as Hspec.
  destruct (validateOptional _ 0 false) as [e |].
  - destruct Hspec as (i0 & -> & Hoff0 & Hmin0). simpl.
    apply offendingAfter_false in Hoff0.
    destruct (Nat.lt_trichotomy i i0) as [Hlt | [-> | Hgt]].
    + exfalso. apply (Hmin0 i Hlt). now apply offendingAfter_false.
    + reflexivity.
    + exfalso. now apply (Hmin i0 Hgt).
  - exfalso. apply (Hspec i). now apply offendingAfter_false.
Qed.

(** With no offender and no index declared twice, extraction succeeds. *)
Lemma extractFields_valid (r : reflectValue) (fs : list StructField) :
  fields_of (t r) = Some fs ->
  positionalOnly fs 0 = true ->
  (forall i, ~ offending (positionals fs 0) i) ->
  (forall i j, ~ sameIndex (positionals fs 0) i j) ->
  exists info,
    extractFields r = Return (Ok info)
    /\ otherFields info = positionals fs 0.
Proof.
  intros Hfs Hpos Hoff Hdup.
  destruct (extractFields_positionals r fs Hfs Hpos) as (bf & m & ->).
  unfold validated.
  pose proof (validateOptional_spec (positionals fs 0) 0 false) as Hspec.
  destruct (validateOptional _ 0 false) as [e |].
  { destruct Hspec as (i0 & _ & Hoff0 & _).
    apply offendingAfter_false in Hoff0. now apply Hoff in Hoff0. }
  pose proof (validateUnique_spec (positionals fs 0) ∅) as Huniq.
  destruct (validateUnique _ ∅) as [e |].
  { destruct Huniq as (j & g & Hg & _ & [Hin | (i & f & Hi & Hf & Hix)]).
    - set_solver.
    - exfalso. apply (Hdup i j). exists f, g. auto. }
  eexists. split; reflexivity.
Qed.

(** An index declared twice makes extraction fail: on the uniqueness check
    when the optional-suffix check passes, on that check otherwise. *)
Lemma extractFields_duplicate (r : reflectValue) (fs : list StructField)
    (i j : nat) :
  fields_of (t r) = Some fs ->
  positionalOnly fs 0 = true ->
  sameIndex (positionals fs 0) i j ->
  exists e,
    extractFields r = Return (Err e)
    /\ ((forall k, ~ offending (positionals fs 0) k) ->
        exists i' j' f,
          sameIndex (positionals fs 0) i' j'
          /\ positionals fs 0 !! j' = Some f
          /\ e = ErrDuplicateFieldIndex (index f))
    /\ ((exists k, offending (positionals fs 0) k) ->
        exists k, offending (positionals fs 0) k
                  /\ e = ErrNonOptionalFollowsOptional k).
Proof.
  intros Hfs Hpos Hsame.
  destruct (extractFields_positionals r fs Hfs Hpos) as (bf & m & ->).
  unfold validated.
  pose proof (validateOptional_spec (positionals fs 0) 0 false) as Hspec.
  destruct (validateOptional _ 0 false) as [e |].
  - destruct Hspec as (k & -> & Hoff & _).
    apply offendingAfter_false in Hoff.
    eexists. split; [reflexivity |]. split.
    + intros Hnone. now apply Hnone in Hoff.
    + intros _. exists k. auto.
  - pose proof (validateUnique_spec (positionals fs 0) ∅) as Huniq.
    destruct (validateUnique _ ∅) as [e |].
    + destruct Huniq as (j' & g & Hg & -> & [Hin | (i' & f & Hi & Hf & Hix)]);
        [set_solver |].
      eexists. split; [reflexivity |]. split.
      * intros _. exists i', j', g. split; [| auto].
        exists f, g. auto.
      * intros (k & Hoff). exfalso. apply (Hspec k).
        now apply offendingAfter_false.
    + exfalso. destruct Huniq as [_ Hnodup]. now apply (Hnodup i j).
Qed.
End DeclaredFacts.

(** ** The growth of slices does not matter on orderly types *)

Lemma orderly_fields (ty : Type_) (fs : list StructField) :
  orderly ty = true ->
  fields_of ty = Some fs ->
  entriesFirst false fs 0 = true
  /\ Forall (fun f => orderly (Typ f) = true) fs.
Proof.
  unfold fields_of.
  induction ty as [| w | w | w | | k IHk e IHe | l | n u IHu | k r];
    simpl; try discriminate; auto.
  intros Hord [= <-]. apply andb_prop in Hord as [Hfirst Hall].
  split; [exact Hfirst |]. clear Hfirst.
  induction l as [| [n p fty tg] l IH]; [constructor |].
  apply andb_prop in Hall as [Hf Hall]. constructor; auto.
Qed.

Lemma orderly_Key_Elem (ty : Type_) :
  orderly ty = true -> orderly (Key ty) = true /\ orderly (Elem ty) = true.
Proof.
  unfold Key, Elem.
  induction ty as [| w | w | w | | k IHk e IHe | l | n u IHu | k r];
    simpl; auto.
  intros Hord. apply andb_prop in Hord. exact Hord.
Qed.

Lemma roleOf_field (i : nat) (f : StructField) :
  match roleOf i f with
  | Entry x | MatcherRole x | BlockGroup x | Argument x => field x = f
  | _ => True
  end.
Proof.
  unfold roleOf.
  repeat match goal with
         | |- context [if ?c then _ else _] => destruct c
         | |- context [match ?c with Some _ => _ | None => _ end] => destruct c
         end; simpl; auto.
Qed.

Lemma declareLoop_fields (P : StructField -> Prop) (fs : list StructField) :
  forall i bf other m bf' other' m',
    Forall P fs ->
    declareLoop fs i (bf, other, m) = Ok (bf', other', m') ->
    Forall (fun x => P (field x)) bf ->
    Forall (fun x => P (field x)) other ->
    Forall (fun x => P (field x)) bf'
    /\ Forall (fun x => P (field x)) other'.
Proof.
  induction fs as [| f fs IH]; simpl;
    intros i bf other m bf' other' m' Hfs E Hbf Hother.
  - inversion E; subst. auto.
  - inversion Hfs as [| ? ? Hf Hfs']; subst.
    pose proof (roleOf_field i f) as Hrole.
    destruct (roleOf i f) as [| x | x | x | x | e]; simpl in E;
      try discriminate; subst;
      try (eapply IH; [exact Hfs' | exact E | |]; auto);
      apply Forall_app; split; auto.
Qed.

Lemma declaredSchema_orderly (ty : Type_) (fs : list StructField)
    (info : structInfo) :
  orderly ty = true ->
  fields_of ty = Some fs ->
  declaredSchema fs = Ok info ->
  orderlyInfo info.
Proof.
  intros Hord Hfs. destruct (orderly_fields _ _ Hord Hfs) as [_ Hall].
  unfold declaredSchema.
  destruct (declareLoop fs 0 ([], [], None)) as [[[bf other] m] |] eqn:E;
    [| discriminate].
  destruct (declareLoop_fields (fun f => orderly (Typ f) = true)
              fs 0 [] [] None bf other m Hall E) as [Hbf Hother];
    [constructor | constructor |].
  unfold validated.
  destruct (validateOptional other 0 false); [discriminate |].
  destruct (validateUnique other ∅); [discriminate |].
  intros [= <-]. split; assumption.
Qed.

Lemma extractFields_orderly `{Runtime} (r : reflectValue) :
  orderly (t r) = true -> extractFields r = declaredOutcome r.
Proof.
  intros Hord. unfold declaredOutcome.
  destruct (fields_of (t r)) as [fs |] eqn:Hfs.
  - destruct (orderly_fields _ _ Hord Hfs) as [Hfirst _].
    now apply extractFields_declared.
  - unfold extractFields. now rewrite Hfs.
Qed.

Lemma declaredOutcome_orderly (r : reflectValue) (info : structInfo) :
  orderly (t r) = true ->
  declaredOutcome r = Return (Ok info) ->
  orderlyInfo info.
Proof.
  unfold declaredOutcome. intros Hord.
  destruct (fields_of (t r)) as [fs |] eqn:Hfs; [| discriminate].
  intros [= E]. eapply declaredSchema_orderly; eauto.
Qed.

Lemma otherFieldAt_orderly (info : structInfo) (ix : Z) (f : fieldInfo) :
  orderlyInfo info -> otherFieldAt info ix = Some f ->
  orderly (Typ (field f)) = true.
Proof.
  intros [_ Hother]. unfold otherFieldAt.
  destruct (_ || _); [discriminate |]. intros E.
  rewrite Forall_forall in Hother. apply Hother.
  eapply list_elem_of_lookup_2, E.
Qed.

Lemma blockFieldNamed_orderly (info : structInfo) (name : string)
    (f : fieldInfo) :
  orderlyInfo info -> blockFieldNamed info name = Some f ->
  orderly (Typ (field f)) = true.
Proof.
  intros [Hbf _]. unfold blockFieldNamed.
  induction Hbf as [| x l Hx Hl IH]; simpl; [discriminate |].
  destruct (String.eqb _ _); [now intros [= <-] | exact IH].
Qed.

Section RuntimeFacts.
Context {D : Type} (R1 R2 : Runtime) `{Dispenser D} `{Host D}.

Lemma bind_ext {A B : Type} (a b : outcome A) (k k' : A -> outcome B) :
  a = b -> (forall x, k x = k' x) -> bind a k = bind b k'.
Proof. intros -> Hk. destruct b; simpl; auto. Qed.

Ltac orderly_side :=
  simpl;
  first
    [ assumption
    | eapply otherFieldAt_orderly; eassumption
    | eapply blockFieldNamed_orderly; eassumption
    | eapply declaredOutcome_orderly; eassumption
    | match goal with
      | Hty : orderly ?ty = true |- orderly (Key ?ty) = true =>
          apply (orderly_Key_Elem ty Hty)
      | Hty : orderly ?ty = true |- orderly (Elem ?ty) = true =>
          apply (orderly_Key_Elem ty Hty)
      end
    | split; constructor ].

Ltac agree IH1 IH2 IH3 IH4 IH5 :=
  repeat first
    [ reflexivity
    | apply IH1; orderly_side
    | apply IH2; orderly_side
    | apply IH3; orderly_side
    | apply IH4; orderly_side
    | apply IH5; orderly_side
    | match goal with
      | |- bind (declaredOutcome ?r) _ = _ =>
          destruct (declaredOutcome r) as [[? | ?] | |] eqn:?; simpl
      end
    | apply bind_ext; [| intro; cbv beta]
    | match goal with
      | |- (let '(_, _) := ?x in _) = _ => destruct x eqn:?
      | |- match ?x with _ => _ end = _ => destruct x eqn:?
      | |- (if ?x then _ else _) = _ => destruct x eqn:?
      end ].

Lemma runtime_agree (n : nat) :
  (forall http d r,
      orderly (t r) = true ->
      @unmarshal D R1 _ _ n http d r = @unmarshal D R2 _ _ n http d r)
  /\ (forall http info ty hb i d val,
         orderly ty = true -> orderlyInfo info ->
         @unmarshal_loop D R1 _ _ n http info ty hb i d val
         = @unmarshal_loop D R2 _ _ n http info ty hb i d val)
  /\ (forall http d nesting r,
         orderly (t r) = true ->
         @unmarshalBlock D R1 _ _ n http d nesting r
         = @unmarshalBlock D R2 _ _ n http d nesting r)
  /\ (forall http isMap info nesting ty d val,
         orderly ty = true -> orderlyInfo info ->
         @unmarshalBlock_loop D R1 _ _ n http isMap info nesting ty d val
         = @unmarshalBlock_loop D R2 _ _ n http isMap info nesting ty d val)
  /\ (forall http isMap info ty d val,
         orderly ty = true -> orderlyInfo info ->
         @parse D R1 _ _ n http isMap info ty d val
         = @parse D R2 _ _ n http isMap info ty d val).
Proof.
  induction n as [| n (IH1 & IH2 & IH3 & IH4 & IH5)].
  - repeat split; reflexivity.
  - repeat split; intros; simpl;
      rewrite ?(@extractFields_orderly R1), ?(@extractFields_orderly R2)
        by assumption.
    all: agree IH1 IH2 IH3 IH4 IH5.
Qed.

(** On an orderly record type the decoder does the same under any two
    growth rules. *)
Lemma Unmarshal_runtime (n : nat) (d : D) (r : reflectValue) :
  orderly (t r) = true ->
  @Unmarshal D R1 _ _ n d r = @Unmarshal D R2 _ _ n d r.
Proof.
  intros Hord. unfold Unmarshal, newReflectValue.
  destruct (Reflect.Kind_eqb _ _); [| reflexivity].
  now apply runtime_agree.
Qed.

Lemma parse_runtime (n : nat) (http isMap : bool) (info : structInfo)
    (ty : Type_) (d : D) (val : Value) :
  orderly ty = true -> orderlyInfo info ->
  @parse D R1 _ _ n http isMap info ty d val
  = @parse D R2 _ _ n http isMap info ty d val.
Proof. intros. now apply runtime_agree. Qed.
End RuntimeFacts.

(** ** The claims on concrete inputs

    Each statement holds for every growth rule of the runtime, for every
    host, and for any fuel from the given amount on. *)

Ltac any_runtime R :=
  rewrite (Unmarshal_runtime R go_runtime) by reflexivity;
  erewrite Unmarshal_fuel; [| vm_compute; reflexivity | discriminate].

Ltac any_runtime_line R :=
  eexists; split;
  [ rewrite extractFields_orderly by reflexivity; vm_compute; reflexivity
  | rewrite (parse_runtime R go_runtime)
      by first [reflexivity | split; repeat constructor];
    erewrite parse_fuel; [| vm_compute; reflexivity | discriminate] ].

(** Scenario A reaches the merged list of [thing1] with a single entry:
    each [{N}] field replaced the list by the block-entry list plus itself. *)
Lemma thing1_schema (R : Runtime) (val : Value) :
  @extractFields R (mkReflectValue val thing1)
  = Return (Ok (mkStructInfo []
                  [mkFieldInfo
                     (tagged "Junk2" (TMap TString TString) "{4},optional")
                     3 (blockKind 4 true)]
                  None)).
Proof. rewrite extractFields_orderly by reflexivity. reflexivity. Qed.

(** C2.  Scenario A on the code: [arg1] is handed to the only entry of the
    merged list, the map field [Junk2], and the call returns "error at [0]:
    cannot unmarshal value of unsupported type", whatever the record holds;
    with the two maps of the record allocated and empty, the record is left
    as it was: no field is assigned. *)
Theorem C2_scenarioA_fails (R : Runtime) (Hh : Host Caddyfile.Dispenser)
    (fuel : nat) :
  (forall val,
      returned (@Unmarshal _ R _ Hh (16 + fuel) scenarioA
                  (mkReflectValue val thing1))
      = Some (Some (ErrAt 0 (ErrUnsupportedType (TMap TString TString)))))
  /\ let maps := VStruct [VString ""; VString "";
                          VMap (Some []); VMap (Some [])] in
     target (@Unmarshal _ R _ Hh (16 + fuel) scenarioA
               (mkReflectValue maps thing1))
     = Some maps.
Proof.
  split.
  - intros val. any_runtime R. reflexivity.
  - intros maps. any_runtime R. reflexivity.
Qed.

(** C3.  Scenario B on the code: the call returns nil, the two arguments are
    assigned, and none of the three body lines reaches its field: the lines
    are looked up by Go field name, so [parameter], [number] and [flag] name
    nothing and are skipped. *)
Theorem C3_scenarioB_populates_no_entry (R : Runtime)
    (Hh : Host Caddyfile.Dispenser) (fuel : nat) :
  let o := @Unmarshal _ R _ Hh (16 + fuel) scenarioB (fresh thing2) in
  returned o = Some None
  /\ target o = Some (VStruct [VString "a"; VString "b";
                               VString ""; VInt 0; VBool false]).
Proof.
  intros o. subst o. any_runtime R. split; reflexivity.
Qed.

(** The lookup that decides scenario B: the entry declared as [parameter] is
    found under [Param] only. *)
Lemma thing2_lookup (R : Runtime) :
  exists info,
    @extractFields R (fresh thing2) = Return (Ok info)
    /\ blockFieldNamed info "parameter" = None
    /\ blockFieldNamed info "number" = None
    /\ blockFieldNamed info "flag" = None
    /\ option_map kind (blockFieldNamed info "Param")
       = Some (blockFieldKind "parameter").
Proof.
  rewrite extractFields_orderly by reflexivity.
  eexists. split; [reflexivity |]. repeat split.
Qed.

(** With the lines named after the Go fields the first line is found, and
    decoding its string value panics: [unmarshal] asks a string for its
    number of fields. *)
Lemma scenarioB_GoNames_panics (R : Runtime) (Hh : Host Caddyfile.Dispenser)
    (fuel : nat) :
  @Unmarshal _ R _ Hh (16 + fuel) scenarioB_GoNames (fresh thing2)
  = Panic "reflect: call of reflect.Value.NumField on non-struct Value".
Proof. any_runtime R. reflexivity. Qed.

(** C4.  Fields declared as [$2] then [$1], arguments [x y]: the first
    argument goes to the field declared first, [Second], not to the field of
    least index. *)
Theorem C4_walk_follows_declaration_order (R : Runtime)
    (Hh : Host Caddyfile.Dispenser) (fuel : nat) :
  let o := @Unmarshal _ R _ Hh (16 + fuel)
             (directive [tok 1 "swapped"; tok 1 "x"; tok 1 "y"])
             (fresh swapped) in
  returned o = Some None
  /\ target o = Some (VStruct [VString "x"; VString "y"]).
Proof.
  intros o. subst o. any_runtime R. split; reflexivity.
Qed.

(** The merged list of [swapped] is in declaration order, indices 2 then 1. *)
Lemma swapped_schema (R : Runtime) :
  exists info,
    @extractFields R (fresh swapped) = Return (Ok info)
    /\ List.map index (otherFields info) = [2%Z; 1%Z].
Proof.
  rewrite extractFields_orderly by reflexivity.
  eexists. split; reflexivity.
Qed.

(** C1.  The line [Server] of the body of [site] fails: [parse] returns
    "error at "Server": missing required field [0]".  The call that reads the
    body returns nil all the same. *)
Theorem C1_block_line_error_is_discarded (R : Runtime)
    (Hh : Host Caddyfile.Dispenser) (fuel : nat) :
  (exists info,
      @extractFields R (fresh site) = Return (Ok info)
      /\ returned (@parse _ R _ Hh (16 + fuel) false false info site
                     (inside site_tokens 2 1) (Zero site))
         = Some (Some (ErrAtName "Server"
                         (ErrPosition 2 (ErrMissingRequiredField 0)))))
  /\ returned (@Unmarshal _ R _ Hh (16 + fuel) (directive site_tokens)
                 (fresh site))
     = Some None.
Proof.
  split.
  - any_runtime_line R. reflexivity.
  - any_runtime R. reflexivity.
Qed.

(** C7.  The line [Flag extra] of the inner body fails: [parse] returns
    "unexpected argument at "Flag"".  The call returns nil all the same, and
    [Flag] stays false. *)
Theorem C7_trailing_token_after_flag_is_accepted (R : Runtime)
    (Hh : Host Caddyfile.Dispenser) (fuel : nat) :
  (exists info,
      @extractFields R (fresh options) = Return (Ok info)
      /\ returned (@parse _ R _ Hh (16 + fuel) false false info options
                     (inside outer_tokens 4 2) (Zero options))
         = Some (Some (ErrPosition 3
                         (ErrUnexpectedArgumentAtName "Flag" "Flag"))))
  /\ let o := @Unmarshal _ R _ Hh (16 + fuel) (directive outer_tokens)
                (fresh outer) in
     returned o = Some None
     /\ target o = Some (VStruct [VStruct [VBool false]]).
Proof.
  split.
  - any_runtime_line R. reflexivity.
  - intros o. subst o. any_runtime R. split; reflexivity.
Qed.

(** The same line without the trailing token sets the field. *)
Lemma flag_line_sets_field (R : Runtime) (Hh : Host Caddyfile.Dispenser)
    (fuel : nat) :
  let o := @Unmarshal _ R _ Hh (16 + fuel)
             (directive [tok 1 "outer"; tok 1 "{";
                         tok 2 "Inner"; tok 2 "{";
                         tok 3 "Flag";
                         tok 4 "}";
                         tok 5 "}"])
             (fresh outer) in
  returned o = Some None
  /\ target o = Some (VStruct [VStruct [VBool true]]).
Proof.
  intros o. subst o. any_runtime R. split; reflexivity.
Qed.

(** ** The matcher check with matcher-token support *)

(** The record [matcherDup] declares a matcher field, and decoding it through
    [UnmarshalForHTTP] does not fail with "expected caddy.ModuleMap": schema
    extraction runs first and rejects the duplicate index. *)
Lemma C10_counterexample :
  declaresMatcher matcherDup = true
  /\ returned (@UnmarshalForHTTP _ go_runtime caddy_dispenser (bare_host _) 16
                 (directive [tok 1 "matcherDup"; tok 1 "x"])
                 (fresh matcherDup))
     = Some (Some (ErrCannotExtractFields (ErrDuplicateFieldIndex 1)))
  /\ ~ exists got,
         failsWith (@UnmarshalForHTTP _ go_runtime caddy_dispenser
                      (bare_host _) 16
                      (directive [tok 1 "matcherDup"; tok 1 "x"])
                      (fresh matcherDup))
                   (ErrExpectedModuleMap got).
Proof.
  split; [reflexivity |]. split; [reflexivity |].
  intros (got & e & d & val & E & Hc).
  vm_compute in E. injection E as <- _ _. discriminate Hc.
Qed.

(** C10, amended.  For every struct record type that declares a matcher
    field, decoding through [UnmarshalForHTTP] (matcher-token support
    supplied) fails, the cursor left where it was and the record holding
    what it held, so the matcher field is not written.  The error is
    "expected caddy.ModuleMap, got" the record type when schema extraction
    succeeds: the check is made on the type of the whole record, and no
    struct type passes it.  It is the error of schema extraction, which runs
    first, when the schema of the record is invalid. *)
Theorem C10_matcher_check_is_on_the_record
    {D : Type} `{Runtime} `{Dispenser D} `{Host D}
    (fuel : nat) (d : D) (r : reflectValue) :
  declaresMatcher (t r) = true ->
  exists e,
    UnmarshalForHTTP (S fuel) d r = Return (Some e, d, v r)
    /\ (forall info,
           extractFields r = Return (Ok info) ->
           e = ErrExpectedModuleMap (t r))
    /\ (forall e',
           extractFields r = Return (Err e') ->
           e = ErrCannotExtractFields e').
Proof.
  intros Hm.
  assert (exists fs, fields_of (t r) = Some fs) as [fs Hfs].
  { unfold declaresMatcher in Hm.
    destruct (fields_of (t r)); [eauto | discriminate]. }
  pose proof (fields_of_Kind _ _ Hfs) as K.
  unfold UnmarshalForHTTP, newReflectValue. rewrite K. simpl.
  destruct (extractFields_struct r fs Hfs) as [[info | e] E]; rewrite E; simpl.
  - pose proof (extractFields_matcher r info Hm E) as Hinfo.
    destruct (matcher info); [| congruence]. simpl.
    rewrite (struct_not_ModuleMap _ K). simpl.
    eexists. split; [reflexivity |]. split; [reflexivity | discriminate].
  - eexists. split; [reflexivity |]. split; [discriminate |].
    now intros e' [= <-].
Qed.

Lemma C10_witness :
  declaresMatcher (t (fresh thing3)) = true
  /\ @UnmarshalForHTTP _ go_runtime caddy_dispenser (bare_host _) 1
       (directive [tok 1 "thing3"; tok 1 "/*"; tok 1 "arg1"])
       (fresh thing3)
     = Return (Some (ErrExpectedModuleMap thing3),
               directive [tok 1 "thing3"; tok 1 "/*"; tok 1 "arg1"],
               Zero thing3).
Proof.
  split; [reflexivity |].
  destruct (@C10_matcher_check_is_on_the_record
              _ go_runtime caddy_dispenser (bare_host _) 0
              (directive [tok 1 "thing3"; tok 1 "/*"; tok 1 "arg1"])
              (fresh thing3))
    as (e & E & Hok & _); [reflexivity |].
  rewrite E. erewrite (Hok _); reflexivity.
Defined.

(** ** The index reported for a missing field *)

(** The record [pair] declares a required positional field at declared index
    2; with one argument and no block, the call does not fail with "missing
    required field [2]": the number reported is 1. *)
Lemma C8_counterexample :
  returned (@Unmarshal _ go_runtime caddy_dispenser (bare_host _) 16
              (directive [tok 1 "pair"; tok 1 "x"]) (fresh pair))
  = Some (Some (ErrPosition 1 (ErrMissingRequiredField 1)))
  /\ ~ failsWith (@Unmarshal _ go_runtime caddy_dispenser (bare_host _) 16
                    (directive [tok 1 "pair"; tok 1 "x"]) (fresh pair))
                 (ErrMissingRequiredField 2).
Proof.
  split; [reflexivity |].
  intros (e & d & val & E & Hc).
  vm_compute in E. injection E as <- _ _. discriminate Hc.
Qed.

(** ** The uniqueness check on positional fields *)

Ltac same_index :=
  eexists _, _; split; [lia | split; [reflexivity | split; reflexivity]].

(** On a concrete list: no position offends. *)
Ltac no_offender :=
  let j := fresh "j" in
  let g := fresh "g" in
  let Hg := fresh "Hg" in
  let Ho := fresh "Ho" in
  intros ? (? & _ & _ & j & g & _ & Hg & Ho);
  repeat (destruct j as [| j]; simpl in Hg;
          [injection Hg as <-; discriminate Ho |]);
  discriminate Hg.

Lemma positionalRecord_fields (ty : Type_) :
  positionalRecord ty = true ->
  exists fs, fields_of ty = Some fs
             /\ positionalOnly fs 0 = true
             /\ declared ty = positionals fs 0.
Proof.
  unfold positionalRecord, declared.
  destruct (fields_of ty) as [fs |]; [eauto | discriminate].
Qed.

(** The record [optionalTwice] declares index 1 twice, and schema extraction
    fails on the optional-suffix check, which runs first, not on the
    uniqueness check. *)
Lemma optionalTwice_suffix_error_first :
  sameIndex (declared optionalTwice) 0 1
  /\ @extractFields go_runtime (fresh optionalTwice)
     = Return (Err (ErrNonOptionalFollowsOptional 1))
  /\ ~ exists ix,
         @extractFields go_runtime (fresh optionalTwice)
         = Return (Err (ErrDuplicateFieldIndex ix)).
Proof.
  split; [| split].
  - same_index.
  - reflexivity.
  - intros (ix & E). discriminate E.
Qed.

(** X6.  For every record type whose indexed fields are all
    positional ([$N]) and in which two of them declare the same index,
    schema extraction fails, whatever the order of declaration and however
    the runtime grows its slices: with the duplicate-index error, on an index
    that is declared twice, when no non-optional field follows an optional
    one; with the error of the optional-suffix check, which runs first,
    otherwise. *)
Lemma duplicate_positional_index_is_rejected `{Runtime}
    (r : reflectValue) (i j : nat) :
  positionalRecord (t r) = true ->
  sameIndex (declared (t r)) i j ->
  exists e,
    extractFields r = Return (Err e)
    /\ ((forall k, ~ offending (declared (t r)) k) ->
        exists i' j' f,
          sameIndex (declared (t r)) i' j'
          /\ declared (t r) !! j' = Some f
          /\ e = ErrDuplicateFieldIndex (index f))
    /\ ((exists k, offending (declared (t r)) k) ->
        exists k, offending (declared (t r)) k
                  /\ e = ErrNonOptionalFollowsOptional k).
Proof.
  intros Hpos.
  destruct (positionalRecord_fields _ Hpos) as (fs & Hfs & Hfs' & ->).
  now apply extractFields_duplicate.
Qed.

Lemma twice_is_rejected :
  positionalRecord twice = true
  /\ sameIndex (declared twice) 0 1
  /\ @extractFields go_runtime (fresh twice)
     = Return (Err (ErrDuplicateFieldIndex 1)).
Proof.
  split; [reflexivity |]. split; [same_index |].
  destruct (@duplicate_positional_index_is_rejected go_runtime
              (fresh twice) 0 1)
    as (e & E & Hdup & _); [reflexivity | same_index |].
  rewrite E. destruct Hdup as (i' & j' & f & _ & Hf & ->); [no_offender |].
  destruct j' as [| [| j']]; simpl in Hf; try discriminate;
    injection Hf as <-; reflexivity.
Defined.

(** ** The optional-suffix check on positional fields *)

(** In the record [twice] all optional fields come after all required ones
    (there is none), and schema extraction fails: index 1 is declared twice.
    In the record [illegal] the first field that follows an optional one
    without being optional is declared with index 3, and the error cites 2,
    its position in the list counted from 0. *)
Lemma twice_and_illegal :
  (forall i, ~ offending (declared twice) i)
  /\ @extractFields go_runtime (fresh twice)
     = Return (Err (ErrDuplicateFieldIndex 1))
  /\ option_map index (declared illegal !! 2) = Some 3%Z
  /\ offending (declared illegal) 2
  /\ @extractFields go_runtime (fresh illegal)
     = Return (Err (ErrNonOptionalFollowsOptional 2)).
Proof.
  split; [no_offender |]. split; [reflexivity |]. split; [reflexivity |].
  split; [| reflexivity].
  eexists. split; [reflexivity |]. split; [reflexivity |].
  exists 1. eexists. split; [lia |]. split; reflexivity.
Qed.

(** X7.  For every record type whose indexed fields are all
    positional ([$N]) and declared in the order of their indices: if a
    non-optional field follows an optional one, decoding fails on schema
    extraction, the cursor untouched, with an error citing the position,
    counted from 0, of the first such field; if all optional fields come
    after all required ones and no index is declared twice, schema
    extraction succeeds and the merged list is the declared one. *)
Lemma optional_suffix_check
    {D : Type} `{Runtime} `{Dispenser D} `{Host D}
    (fuel : nat) (d : D) (r : reflectValue) :
  positionalRecord (t r) = true ->
  inIndexOrder (declared (t r)) ->
  (forall i,
      offending (declared (t r)) i ->
      (forall i', i' < i -> ~ offending (declared (t r)) i') ->
      Unmarshal (S fuel) d r
      = Return (Some (ErrCannotExtractFields
                        (ErrNonOptionalFollowsOptional i)), d, v r))
  /\ ((forall i, ~ offending (declared (t r)) i) ->
      (forall i j, ~ sameIndex (declared (t r)) i j) ->
      exists info,
        extractFields r = Return (Ok info)
        /\ otherFields info = declared (t r)).
Proof.
  intros Hpos _.
  destruct (positionalRecord_fields _ Hpos) as (fs & Hfs & Hfs' & ->).
  split.
  - intros i Hoff Hmin.
    unfold Unmarshal, newReflectValue.
    rewrite (fields_of_Kind _ _ Hfs). simpl.
    now rewrite (extractFields_offender r fs i Hfs Hfs' Hoff Hmin).
  - now apply extractFields_valid.
Qed.

Lemma illegal_and_pair :
  positionalRecord illegal = true
  /\ inIndexOrder (declared illegal)
  /\ @Unmarshal _ go_runtime caddy_dispenser (bare_host _) 1
       (directive [tok 1 "illegal"; tok 1 "x"; tok 1 "y"; tok 1 "z"])
       (fresh illegal)
     = Return (Some (ErrCannotExtractFields
                       (ErrNonOptionalFollowsOptional 2)),
               directive [tok 1 "illegal"; tok 1 "x"; tok 1 "y"; tok 1 "z"],
               Zero illegal)
  /\ exists info,
       @extractFields go_runtime (fresh pair) = Return (Ok info)
       /\ otherFields info = declared pair.
Proof.
  split; [reflexivity |]. split; [reflexivity |]. split.
  - apply (@optional_suffix_check _ go_runtime caddy_dispenser
             (bare_host _) 0 _ (fresh illegal));
      [reflexivity | reflexivity | |].
    + eexists. split; [reflexivity |]. split; [reflexivity |].
      exists 1. eexists. split; [lia |]. split; reflexivity.
    + intros i' Hlt (f & Hf & Ho & j & g & Hj & Hg & Hog).
      destruct i' as [| [| i']]; [lia | | lia].
      simpl in Hf. injection Hf as <-. discriminate Ho.
  - apply (@optional_suffix_check _ go_runtime caddy_dispenser
             (bare_host _) 0
             (directive [tok 1 "pair"]) (fresh pair));
      [reflexivity | reflexivity | no_offender |].
    intros i j (f & g & Hij & Hf & Hg & Hix).
    destruct i as [| [| i]], j as [| [| j]]; simpl in Hf, Hg;
      try lia; try discriminate.
    injection Hf as <-. injection Hg as <-. discriminate Hix.
Defined.

(** C8, amended.  For a record whose merged list holds a required field at
    position 1, counted from 0 (as a field declared [$2] after one declared
    [$1]), an input that supplies one argument token, taken by the field at
    position 0, and no block makes decoding fail with "missing required
    field [1]": the number reported is the position in the merged list, not
    the declared index. *)
Theorem C8_missing_field_reports_position
    {D : Type} `{Runtime} `{Dispenser D} `{Host D}
    (fuel : nat) (d d1 d2 d3 d4 : D) (r : reflectValue) (info : structInfo)
    (f0 f1 : fieldInfo) (x : Value) :
  extractFields r = Return (Ok info) ->
  matcher info = None ->
  otherFields info !! 0 = Some f0 ->
  otherFields info !! 1 = Some f1 ->
  optional f1 = false ->
  NextArg d = (true, d1) ->
  unmarshalValue d1 (fieldValue (v r) f0) (Val d1) = (None, d2, x) ->
  NextArg d2 = (false, d3) ->
  NextBlock d3 (Nesting d2) = (false, d4) ->
  Unmarshal (3 + fuel) d r
  = Return (Some (WrapErr d4 (ErrMissingRequiredField 1)), d4,
            SetField (v r) (value f0) x).
Proof.
  intros E Hm H0' H1' Hreq Harg Hval Hnoarg Hnoblock.
  assert (Kind (t r) = Reflect.Struct) as K.
  { unfold extractFields in E.
    destruct (fields_of (t r)) eqn:Hfs; [| discriminate].
    eapply fields_of_Kind, Hfs. }
  unfold Unmarshal, newReflectValue. rewrite K. simpl.
  rewrite E. simpl. rewrite Hm.
  destruct (otherFields info) as [| g0 [| g1 rest]] eqn:Hother;
    try discriminate.
  simpl in H0', H1'. injection H0' as ->. injection H1' as ->.
  rewrite Harg. unfold otherFieldAt. rewrite Hother. simpl.
  rewrite Hval. rewrite Hnoarg, Hnoblock.
  unfold missingRequired. rewrite Hother. simpl. rewrite Hreq. simpl.
  reflexivity.
Qed.

Lemma C8_witness :
  exists d4 val,
    @Unmarshal _ go_runtime caddy_dispenser (bare_host _) 3
      (directive [tok 1 "pair"; tok 1 "x"]) (fresh pair)
    = Return (Some (WrapErr d4 (ErrMissingRequiredField 1)), d4, val)
    /\ WrapErr d4 (ErrMissingRequiredField 1)
       = ErrPosition 1 (ErrMissingRequiredField 1)
    /\ val = VStruct [VString "x"; VString ""].
Proof.
  eexists _, _. split.
  - eapply (@C8_missing_field_reports_position _ go_runtime caddy_dispenser
              (bare_host _) 0);
      reflexivity.
  - split; reflexivity.
Defined.

(** ** The two slips of schema extraction

    The inputs below reach the append of an indexed-block field and the sort.
    No backing array is shared on any of them, so the results hold however
    the runtime grows its slices. *)

(** C5.  A positional field [$1] and an indexed-block field [{1}] declare
    the same index, and schema extraction succeeds: the indexed-block field
    is stored over the merged list, which then holds it alone, so the
    uniqueness check never sees the positional field. *)
Theorem C5_duplicate_across_tag_forms_is_accepted (R : Runtime) :
  @extractFields R (fresh mixedTwice)
  = Return (Ok (mkStructInfo []
                  [mkFieldInfo (tagged "B" (TMap TString TBool) "{1}") 1
                     (blockKind 1 false)]
                  None)).
Proof.
  erewrite extractFields_declared by reflexivity. reflexivity.
Qed.

(** Two indexed-block fields of the same index: the second replaces the
    first, and extraction succeeds as well. *)
Lemma blocksTwice_accepted (R : Runtime) :
  exists info,
    @extractFields R (fresh blocksTwice) = Return (Ok info)
    /\ List.map value (otherFields info) = [1].
Proof.
  erewrite extractFields_declared by reflexivity.
  eexists. split; reflexivity.
Qed.

(** C6.  Declared as [$2] then [$1,optional]: in the order of the indices
    the required field follows the optional one, and schema extraction
    succeeds, the merged list being in declaration order.  Declared as
    [$2,optional] then [$1]: in the order of the indices the optional field
    comes last, and schema extraction fails. *)
Theorem C6_suffix_check_follows_declaration_order (R : Runtime) :
  (exists info,
      @extractFields R (fresh requiredLast) = Return (Ok info)
      /\ List.map index (otherFields info) = [2%Z; 1%Z]
      /\ List.map optional (otherFields info) = [false; true])
  /\ @extractFields R (fresh optionalLast)
     = Return (Err (ErrNonOptionalFollowsOptional 1)).
Proof.
  split.
  - erewrite extractFields_declared by reflexivity.
    eexists. split; [reflexivity |]. split; reflexivity.
  - erewrite extractFields_declared by reflexivity. reflexivity.
Qed.

(** * Further properties of the code *)

(** ** Schemas under any growth rule

    What holds of every schema that [extractFields] returns, shared backing
    arrays or not: the arrays only ever receive entries made of the record's
    own fields. *)

Lemma roleOf_value (i : nat) (f : StructField) :
  match roleOf i f with
  | Entry x | MatcherRole x | BlockGroup x | Argument x => value x = i
  | _ => True
  end.
Proof.
  unfold roleOf.
  repeat match goal with
         | |- context [if ?c then _ else _] => destruct c
         | |- context [match ?c with Some _ => _ | None => _ end] => destruct c
         end; exact I || reflexivity.
Qed.

Lemma roleOf_exported (i : nat) (f : StructField) :
  IsExported f = false -> roleOf i f = Skipped.
Proof. unfold roleOf. now intros ->. Qed.

Lemma roleOf_listed_exported (i : nat) (f : StructField) (x : fieldInfo) :
  roleOf i f = Entry x \/ roleOf i f = BlockGroup x \/ roleOf i f = Argument x ->
  IsExported f = true.
Proof.
  destruct (IsExported f) eqn:E; [reflexivity |].
  rewrite (roleOf_exported i f E). intros [? | [? | ?]]; discriminate.
Qed.

Lemma roleOf_Malformed (i j : nat) (f : StructField) (e : error) :
  roleOf i f = Malformed e -> roleOf j f = Malformed e.
Proof.
  unfold roleOf.
  repeat match goal with
         | |- context [if ?c then _ else _] => destruct c
         | |- context [match ?c with Some _ => _ | None => _ end] => destruct c
         end; try discriminate; auto.
Qed.

Lemma roleOf_fromField (fs : list StructField) (i : nat) (f : StructField) :
  fs !! i = Some f ->
  match roleOf i f with
  | Entry x | BlockGroup x | Argument x => fromField fs x
  | _ => True
  end.
Proof.
  intros Hf. pose proof (roleOf_field i f) as Hfield.
  pose proof (roleOf_value i f) as Hvalue.
  destruct (roleOf i f) as [| x | x | x | x | e] eqn:Hrole; try exact I;
    (split; [rewrite Hvalue, Hfield; exact Hf |]);
    rewrite Hvalue, Hfield, Hrole; auto.
Qed.

Lemma sink_Forall {A : Type} (P : A -> Prop) (less : A -> A -> bool) (x : A)
    (acc : list A) :
  P x -> Forall P acc -> Forall P (sink less x acc).
Proof.
  intros Hx. induction acc as [| y acc IH]; simpl; intros Hacc.
  - now constructor.
  - inversion Hacc; subst. destruct (less x y).
    + constructor; auto.
    + constructor; auto.
Qed.

Lemma insertionSort_Forall {A : Type} (P : A -> Prop) (less : A -> A -> bool)
    (l : list A) :
  Forall P l -> Forall P (insertionSort less l).
Proof.
  unfold insertionSort. intros Hl. apply Forall_rev.
  assert (forall acc, Forall P acc ->
                      Forall P (fold_left (fun acc x => sink less x acc) l acc))
    as Hfold.
  { induction Hl as [| x l Hx Hl IH]; simpl; intros acc Hacc; [exact Hacc |].
    apply IH. now apply sink_Forall. }
  apply Hfold. constructor.
Qed.

Section SoundnessFacts.
Context `{Runtime}.

Lemma elems_Forall (P : fieldInfo -> Prop) (h : heap) (s : slice) :
  Forall (Forall P) h -> Forall P (elems h s).
Proof.
  intros Hh. unfold elems.
  destruct (h !! arr s) as [a |] eqn:Ea; simpl.
  - apply Forall_take. eapply Forall_lookup_1; [exact Hh | exact Ea].
  - rewrite take_nil. constructor.
Qed.

Lemma append_Forall (P : fieldInfo -> Prop) (h h' : heap) (s s' : slice)
    (x : fieldInfo) :
  Forall (Forall P) h -> P x -> append h s x = (s', h') ->
  Forall (Forall P) h'.
Proof.
  intros Hh Hx. unfold append.
  destruct (len s <? cap s)%nat; intros [= <- <-].
  - apply Forall_insert; [exact Hh |].
    assert (Forall P (default [] (h !! arr s))) as Ha.
    { destruct (h !! arr s) as [a |] eqn:Ea; simpl; [| constructor].
      eapply Forall_lookup_1; [exact Hh | exact Ea]. }
    apply Forall_app. split; [now apply Forall_take |].
    constructor; [exact Hx | now apply Forall_drop].
  - apply Forall_app. split; [exact Hh |].
    constructor; [| constructor].
    apply Forall_app. split; [now apply elems_Forall |].
    constructor; [exact Hx | constructor].
Qed.

Lemma sort_Slice_Forall (P : fieldInfo -> Prop) (h : heap) (s : slice)
    (less : fieldInfo -> fieldInfo -> bool) :
  Forall (Forall P) h -> Forall (Forall P) (sort_Slice h s less).
Proof.
  intros Hh. unfold sort_Slice.
  destruct (h !! arr s) as [a |] eqn:Ea; [| exact Hh].
  assert (Forall P a) as Ha by (eapply Forall_lookup_1; [exact Hh | exact Ea]).
  apply Forall_insert; [exact Hh |].
  apply Forall_app. split.
  - apply insertionSort_Forall. now apply Forall_take.
  - now apply Forall_drop.
Qed.

Lemma extractField_Forall (P : fieldInfo -> Prop) (st st' : extractState)
    (i : nat) (f : StructField) :
  match roleOf i f with
  | Entry x | BlockGroup x | Argument x => P x
  | _ => True
  end ->
  Forall (Forall P) (hp st) ->
  extractField st i f = Ok st' ->
  Forall (Forall P) (hp st').
Proof.
  intros Hx Hh. rewrite extractField_role.
  destruct (roleOf i f) as [| x | x | x | x | e].
  - now intros [= <-].
  - destruct (append _ _ _) as [s' h'] eqn:Ea. intros [= <-]. simpl.
    eapply append_Forall; eauto.
  - now intros [= <-].
  - destruct (append _ _ _) as [s' h'] eqn:Ea. intros [= <-]. simpl.
    eapply append_Forall; eauto.
  - destruct (append _ _ _) as [s' h'] eqn:Ea. intros [= <-]. simpl.
    eapply append_Forall; eauto.
  - discriminate.
Qed.

Lemma extractLoop_Forall (all : list StructField) (fs : list StructField) :
  forall (pre : list StructField) (st st' : extractState),
    all = pre ++ fs ->
    Forall (Forall (fromField all)) (hp st) ->
    extractLoop fs (length pre) st = Ok st' ->
    Forall (Forall (fromField all)) (hp st').
Proof.
  induction fs as [| f fs IH]; simpl; intros pre st st' Hall Hh E.
  - now injection E as <-.
  - destruct (extractField st (length pre) f) as [st1 | e] eqn:E1;
      [| discriminate].
    apply (IH (pre ++ [f]) st1 st').
    + now rewrite <- app_assoc.
    + eapply extractField_Forall; [| exact Hh | exact E1].
      apply roleOf_fromField. subst all.
      now apply list_lookup_middle.
    + rewrite length_app. simpl.
      now replace (length pre + 1) with (S (length pre)) by lia.
Qed.

Lemma extractFields_fromField (r : reflectValue) (fs : list StructField)
    (info : structInfo) :
  fields_of (t r) = Some fs ->
  extractFields r = Return (Ok info) ->
  Forall (fromField fs) (blockFields info)
  /\ Forall (fromField fs) (otherFields info).
Proof.
  intros Hfs. unfold extractFields. rewrite Hfs.
  destruct (extractLoop fs 0 extract_init) as [st | e] eqn:El;
    [| discriminate].
  pose proof (extractLoop_Forall fs fs [] extract_init st eq_refl
                ltac:(constructor) El) as Hh.
  apply (sort_Slice_Forall _ _ (st_blockFields st)
           (fun a b => (index a <? index b)%Z)) in Hh.
  simpl.
  destruct (validateOptional _ _ _); [discriminate |].
  destruct (validateUnique _ _); [discriminate |].
  intros [= <-]. simpl. split; now apply elems_Forall.
Qed.

Lemma extractLoop_malformed (post : list StructField)
    (f : StructField) (e : error) (pre : list StructField) :
  forall (i : nat) (st : extractState),
    Forall (fun g => hasMalformedIndex g = false) pre ->
    roleOf 0 f = Malformed e ->
    extractLoop (pre ++ f :: post) i st = Err e.
Proof.
  induction pre as [| g pre IH]; simpl; intros i st Hpre Hf.
  - rewrite extractField_role, (roleOf_Malformed 0 i f e Hf). reflexivity.
  - inversion Hpre as [| ? ? Hg Hrest]; subst.
    rewrite extractField_role. unfold hasMalformedIndex in Hg.
    destruct (roleOf i g) as [| x | x | x | x | e'] eqn:Hrole.
    + now apply IH.
    + destruct (append _ _ _). now apply IH.
    + now apply IH.
    + destruct (append _ _ _). now apply IH.
    + destruct (append _ _ _). now apply IH.
    + now rewrite (roleOf_Malformed i 0 g e' Hrole) in Hg.
Qed.
End SoundnessFacts.

Lemma validateUnique_NoDup (l : list fieldInfo) :
  forall used : gset Z,
    validateUnique l used = None ->
    NoDup (List.map index l)
    /\ forall x, In x l -> index x ∉ used.
Proof.
  induction l as [| f l IH]; simpl; intros used E.
  - split; [constructor | intros x []].
  - destruct (bool_decide (index f ∈ used)) eqn:Eb; [discriminate |].
    apply bool_decide_eq_false in Eb.
    destruct (IH _ E) as [Hnd Hout]. split.
    + constructor; [| exact Hnd].
      intros Hin. apply list_elem_of_In, in_map_iff in Hin as (x & Ex & Hx).
      apply (Hout x Hx). rewrite Ex.
      apply elem_of_union. left. now apply elem_of_singleton.
    + intros x [<- | Hx]; [exact Eb |].
      intros Hin. apply (Hout x Hx), elem_of_union. now right.
Qed.

Lemma declareLoop_app (pre fs : list StructField) :
  forall (i : nat) (ls : lists),
    declareLoop (pre ++ fs) i ls
    = match declareLoop pre i ls with
      | Ok ls' => declareLoop fs (i + length pre) ls'
      | Err e => Err e
      end.
Proof.
  induction pre as [| f pre IH]; simpl; intros i ls.
  - now rewrite Nat.add_0_r.
  - destruct (declareField ls (roleOf i f)) as [ls' | e]; [| reflexivity].
    rewrite IH. now replace (S i + length pre) with (i + S (length pre)) by lia.
Qed.

Lemma declareLoop_from (k : nat) (fs : list StructField) :
  forall i bf other m bf' other' m',
    k <= i ->
    declareLoop fs i (bf, other, m) = Ok (bf', other', m') ->
    Forall (fun x => isBlockField x = true \/ k <= value x) bf ->
    Forall (fun x => isBlockField x = true \/ k <= value x) other ->
    Forall (fun x => isBlockField x = true \/ k <= value x) other'.
Proof.
  induction fs as [| f fs IH]; simpl;
    intros i bf other m bf' other' m' Hk E Hbf Hother.
  - now inversion E; subst.
  - pose proof (roleOf_value i f) as Hv.
    destruct (roleOf i f) as [| x | x | x | x | e] eqn:Hrole; simpl in E;
      try discriminate.
    + eapply (IH (S i)); [lia | exact E | exact Hbf | exact Hother].
    + eapply (IH (S i)); [lia | exact E | | exact Hother].
      apply Forall_app. split; [exact Hbf |].
      constructor; [| constructor]. right. lia.
    + eapply (IH (S i)); [lia | exact E | exact Hbf | exact Hother].
    + eapply (IH (S i)); [lia | exact E | exact Hbf |].
      apply Forall_app. split; [exact Hbf |].
      constructor; [| constructor]. right. lia.
    + eapply (IH (S i)); [lia | exact E | exact Hbf |].
      apply Forall_app. split; [exact Hother |].
      constructor; [| constructor]. right. lia.
Qed.

(** X1.  Whatever the runtime does when it grows a slice, every entry of
    the two lists of a schema comes from a field of the record: it holds an
    exported field of the record, that field's own position, and the role
    that the field's own tag gives it. *)
Theorem schema_entries_come_from_fields `{Runtime} (r : reflectValue)
    (fs : list StructField) (info : structInfo) (x : fieldInfo) :
  fields_of (t r) = Some fs ->
  extractFields r = Return (Ok info) ->
  In x (blockFields info ++ otherFields info) ->
  fs !! value x = Some (field x)
  /\ IsExported (field x) = true
  /\ (roleOf (value x) (field x) = Entry x
      \/ roleOf (value x) (field x) = BlockGroup x
      \/ roleOf (value x) (field x) = Argument x).
Proof.
  intros Hfs He Hin.
  destruct (extractFields_fromField r fs info Hfs He) as [Hb Ho].
  assert (fromField fs x) as [Hl Hrole].
  { rewrite Forall_forall in Hb, Ho.
    apply in_app_or in Hin as [Hin | Hin];
      [apply Hb | apply Ho]; now apply list_elem_of_In. }
  split; [exact Hl |]. split; [| exact Hrole].
  eapply roleOf_listed_exported, Hrole.
Qed.

Lemma schema_entries_come_from_fields_witness :
  let x := mkFieldInfo (tagged "Param" TString "parameter") 2
             (blockFieldKind "parameter") in
  @extractFields go_runtime (fresh thing2) = Return (Ok thing2_info)
  /\ fields_of thing2 = Some [tagged "Arg1" TString "$1";
                              tagged "Arg2" TString "$2,optional";
                              field x;
                              untagged "Number" (TInt WInt);
                              untagged "Flag" TBool]
  /\ IsExported (field x) = true
  /\ (roleOf (value x) (field x) = Entry x
      \/ roleOf (value x) (field x) = BlockGroup x
      \/ roleOf (value x) (field x) = Argument x).
Proof.
  intros x. split; [reflexivity |]. split; [reflexivity |].
  eapply (@schema_entries_come_from_fields go_runtime (fresh thing2) _
            thing2_info x).
  - reflexivity.
  - reflexivity.
  - left. reflexivity.
Defined.

(** X2.  A schema that [extractFields] returns has passed both validations,
    on the merged list as it stands: no two of its entries have the same
    index, and every entry that comes after an optional one is optional. *)
Theorem accepted_schema_is_validated `{Runtime} (r : reflectValue)
    (info : structInfo) :
  extractFields r = Return (Ok info) ->
  NoDup (List.map index (otherFields info))
  /\ forall i j f g,
       i < j ->
       otherFields info !! i = Some f ->
       otherFields info !! j = Some g ->
       optional f = true -> optional g = true.
Proof.
  unfold extractFields.
  destruct (fields_of (t r)) as [fs |]; [| discriminate].
  destruct (extractLoop fs 0 extract_init) as [st | e]; [| discriminate].
  simpl.
  set (l := elems _ (st_otherFields st)).
  pose proof (validateOptional_spec l 0 false) as Hopt.
  destruct (validateOptional l 0 false); [discriminate |].
  destruct (validateUnique l ∅) eqn:Eu; [discriminate |].
  intros [= <-]. simpl. split.
  - now apply (validateUnique_NoDup l ∅).
  - intros i j f g Hij Hf Hg Of.
    destruct (optional g) eqn:Og; [reflexivity |].
    exfalso. apply (Hopt j). exists g. split; [exact Hg |].
    split; [exact Og |]. right. now exists i, f.
Qed.

Lemma accepted_schema_is_validated_witness :
  @extractFields go_runtime (fresh thing2) = Return (Ok thing2_info)
  /\ NoDup (List.map index (otherFields thing2_info))
  /\ forall i j f g,
       i < j ->
       otherFields thing2_info !! i = Some f ->
       otherFields thing2_info !! j = Some g ->
       optional f = true -> optional g = true.
Proof.
  split; [reflexivity |].
  exact (@accepted_schema_is_validated go_runtime (fresh thing2) thing2_info
           eq_refl).
Defined.

(** X3.  The first field, in declaration order, whose index does not parse
    decides the result of [extractFields]: its error is returned, whatever
    the fields around it declare and however the runtime grows slices. *)
Theorem malformed_index_is_reported_first `{Runtime} (r : reflectValue)
    (pre post : list StructField) (f : StructField) (e : error) :
  fields_of (t r) = Some (pre ++ f :: post) ->
  Forall (fun g => hasMalformedIndex g = false) pre ->
  roleOf (length pre) f = Malformed e ->
  extractFields r = Return (Err e).
Proof.
  intros Hfs Hpre Hf. unfold extractFields. rewrite Hfs.
  rewrite (extractLoop_malformed post f e pre 0 extract_init Hpre);
    [reflexivity |].
  eapply roleOf_Malformed, Hf.
Qed.

Lemma malformed_index_is_reported_first_witness :
  @extractFields go_runtime (fresh badIndex)
  = Return (Err (ErrInvalidArgumentIndex "$second")).
Proof.
  apply (@malformed_index_is_reported_first go_runtime (fresh badIndex)
           [tagged "A" TString "$1"]
           [tagged "C" TString "$1"]
           (tagged "B" TString "$second")).
  - reflexivity.
  - repeat constructor.
  - reflexivity.
Defined.

(** X4.  When no block-entry field is declared after an indexed-block
    field, [extractFields] returns the same result however the runtime grows
    slices: no append then writes into an array that the other list still
    reads. *)
Theorem extraction_ignores_growth (R1 R2 : Runtime) (r : reflectValue)
    (fs : list StructField) :
  fields_of (t r) = Some fs ->
  entriesFirst false fs 0 = true ->
  @extractFields R1 r = @extractFields R2 r.
Proof.
  intros Hfs Hfirst.
  rewrite (@extractFields_declared R1 r fs Hfs Hfirst).
  now rewrite (@extractFields_declared R2 r fs Hfs Hfirst).
Qed.

Lemma extraction_ignores_growth_witness :
  @extractFields go_runtime (fresh entriesThenGroup)
  = @extractFields tight_runtime (fresh entriesThenGroup).
Proof.
  apply (extraction_ignores_growth go_runtime tight_runtime
           (fresh entriesThenGroup)
           [untagged "A" TBool;
            untagged "B" TBool;
            untagged "C" TBool;
            tagged "D" (TMap TString TBool) "{1},optional"]);
    reflexivity.
Defined.

(** X5.  An indexed-block field replaces the merged list by the block-entry
    list and itself.  On a record that declares its block entries first, no
    positional and no indexed-block field declared before an indexed-block
    field is in the merged list of the schema: what the list holds from
    before that field are block entries. *)
Theorem indexed_block_discards_earlier_indexed_fields `{Runtime}
    (r : reflectValue) (pre post : list StructField) (g : StructField)
    (y : fieldInfo) (info : structInfo) (x : fieldInfo) :
  fields_of (t r) = Some (pre ++ g :: post) ->
  entriesFirst false (pre ++ g :: post) 0 = true ->
  roleOf (length pre) g = BlockGroup y ->
  extractFields r = Return (Ok info) ->
  In x (otherFields info) ->
  value x < length pre ->
  isBlockField x = true.
Proof.
  intros Hfs Hfirst Hg He Hx Hlt.
  rewrite (extractFields_declared r _ Hfs Hfirst) in He.
  unfold declaredSchema in He. rewrite declareLoop_app in He.
  destruct (declareLoop pre 0 ([], [], None)) as [[[bf other] m] |] eqn:Epre;
    [| discriminate].
  simpl in He. rewrite Hg in He. simpl in He.
  destruct (declareLoop post _ _) as [[[bf' other'] m'] |] eqn:Epost;
    [| discriminate].
  assert (Forall (fun x => isBlockField x = true) bf) as Hbf.
  { eapply declareLoop_entries; [exact Epre | constructor]. }
  assert (Forall (fun x => isBlockField x = true \/ length pre <= value x) bf)
    as Hbf'.
  { eapply Forall_impl; [exact Hbf |]. intros z Hz. now left. }
  unfold validated in He.
  destruct (validateOptional other' 0 false); [discriminate |].
  destruct (validateUnique other' ∅); [discriminate |].
  injection He as <-. simpl in Hx.
  assert (Forall (fun x => isBlockField x = true \/ length pre <= value x)
            other') as Hall.
  { eapply (declareLoop_from (length pre)); [| exact Epost | exact Hbf' |].
    - lia.
    - apply Forall_app. split; [exact Hbf' |].
      constructor; [| constructor]. right.
      pose proof (roleOf_value (length pre) g) as Hv. rewrite Hg in Hv.
      lia. }
  rewrite Forall_forall in Hall.
  destruct (Hall x ltac:(now apply list_elem_of_In)) as [Hb | Hge];
    [exact Hb | lia].
Qed.

Lemma indexed_block_discards_earlier_indexed_fields_witness :
  let flag := mkFieldInfo (untagged "Flag" TBool) 1 (blockFieldKind "Flag") in
  let opts := mkFieldInfo (tagged "Opts" (TMap TString TBool) "{2},optional")
                2 (blockKind 2 true) in
  @extractFields go_runtime (fresh shadowed)
  = Return (Ok (mkStructInfo [flag] [flag; opts] None))
  /\ isBlockField flag = true.
Proof.
  intros flag opts. split; [reflexivity |].
  apply (@indexed_block_discards_earlier_indexed_fields go_runtime
           (fresh shadowed)
           [tagged "A" TString "$1"; untagged "Flag" TBool] []
           (tagged "Opts" (TMap TString TBool) "{2},optional")
           opts (mkStructInfo [flag] [flag; opts] None) flag).
  - reflexivity.
  - reflexivity.
  - reflexivity.
  - reflexivity.
  - left. reflexivity.
  - simpl. lia.
Defined.

(** ** Decimal numerals

    [strconv.ParseInt] and [strconv.ParseUint] read back what
    [strconv.FormatInt] writes. *)

Lemma digits_value_acc (u : Decimal.uint) :
  forall p : positive,
    digits_value (DecimalString.NilEmpty.string_of_uint u) (Z.pos p)
    = Some (Z.pos (Pos.of_uint_acc u p)).
Proof.
  induction u; intros p; cbn [DecimalString.NilEmpty.string_of_uint
                            digits_value Pos.of_uint_acc];
    try reflexivity;
    change (is_digit _) with true; cbv iota;
    match goal with
    | |- digits_value _ ?a = _ =>
        match goal with
        | |- _ = Some (Z.pos (Pos.of_uint_acc _ ?q)) =>
            replace a with (Z.pos q)
              by (match goal with
                  | |- context [Z.of_nat ?n] =>
                      let k := eval vm_compute in (Z.of_nat n) in
                      change (Z.of_nat n) with k
                  end; lia)
        end
    end; apply IHu.
Qed.

Lemma digits_value_uint (u : Decimal.uint) :
  digits_value (DecimalString.NilEmpty.string_of_uint u) 0
  = Some (Z.of_N (Pos.of_uint u)).
Proof.
  induction u; cbn [DecimalString.NilEmpty.string_of_uint
                      digits_value Pos.of_uint];
    try reflexivity;
    change (is_digit _) with true; cbv iota;
    try exact IHu;
    match goal with
    | |- digits_value _ ?a = Some (Z.of_N (N.pos (Pos.of_uint_acc _ ?q))) =>
        change a with (Z.pos q)
    end; apply digits_value_acc.
Qed.

Lemma digits_value_to_uint (p : positive) :
  digits_value (DecimalString.NilEmpty.string_of_uint (Pos.to_uint p)) 0
  = Some (Z.pos p).
Proof.
  rewrite digits_value_uint, DecimalPos.Unsigned.of_to. reflexivity.
Qed.

Lemma to_uint_string (p : positive) :
  exists c r,
    DecimalString.NilZero.string_of_uint (Pos.to_uint p) = String c r
    /\ DecimalString.NilEmpty.string_of_uint (Pos.to_uint p) = String c r
    /\ is_digit c = true.
Proof.
  pose proof (DecimalPos.Unsigned.to_uint_nonnil p) as Hnil.
  destruct (Pos.to_uint p); try congruence; cbn; eauto.
Qed.

Lemma is_digit_not_sign (c : ascii) :
  is_digit c = true -> Ascii.eqb c "-" = false /\ Ascii.eqb c "+" = false.
Proof.
  unfold is_digit. intros Hd. apply andb_prop in Hd as [Hlo Hhi].
  apply Nat.leb_le in Hlo.
  split; apply Ascii.eqb_neq; intros ->; vm_compute in Hlo; lia.
Qed.

Lemma signed_decimal_FormatInt (z : Z) : signed_decimal (FormatInt z) = Some z.
Proof.
  unfold FormatInt. destruct z as [| p | p]; [reflexivity | |];
    cbn [Z.to_int DecimalString.NilZero.string_of_int];
    destruct (to_uint_string p) as (c & r & E0 & E & Hd);
    pose proof (digits_value_to_uint p) as Hv; rewrite E in Hv; rewrite E0.
  - unfold signed_decimal.
    destruct (is_digit_not_sign c Hd) as [-> ->]. exact Hv.
  - unfold signed_decimal. cbn [Ascii.eqb Bool.eqb]. cbv iota.
    change (Ascii.eqb "-" "-") with true. cbv iota. now rewrite Hv.
Qed.

Lemma ParseInt_FormatInt (z bits : Z) :
  ParseInt (FormatInt z) bits
  = if (- 2 ^ (bits - 1) <=? z)%Z && (z <=? 2 ^ (bits - 1) - 1)%Z
    then Some z else None.
Proof. unfold ParseInt. now rewrite signed_decimal_FormatInt. Qed.

Lemma FormatInt_digits (z : Z) :
  FormatInt z <> ""
  /\ digits_value (FormatInt z) 0 = if (0 <=? z)%Z then Some z else None.
Proof.
  unfold FormatInt.
  destruct z as [| p | p]; [split; [discriminate | reflexivity] | |];
    cbn [Z.to_int DecimalString.NilZero.string_of_int];
    destruct (to_uint_string p) as (c & r & E0 & E & Hd);
    pose proof (digits_value_to_uint p) as Hv; rewrite E in Hv; rewrite E0.
  - split; [discriminate | exact Hv].
  - split; [discriminate | reflexivity].
Qed.

Lemma ParseUint_FormatInt (z bits : Z) :
  ParseUint (FormatInt z) bits
  = if (0 <=? z)%Z && (z <=? 2 ^ bits - 1)%Z then Some z else None.
Proof.
  unfold ParseUint. destruct (FormatInt_digits z) as [Hne Hv].
  destruct (FormatInt z) eqn:E; [congruence |]. rewrite Hv.
  destruct (0 <=? z)%Z; reflexivity.
Qed.

(** ** Coercion of a raw token *)

Lemma Kind_underlying (ty : Type_) : Kind (underlying ty) = Kind ty.
Proof.
  induction ty as [| w | w | w | | k IHk e IHe | l | n u IHu | k r];
    simpl; auto.
Qed.

Lemma Kind_Int64_underlying (ty : Type_) :
  Kind ty = Reflect.Int64 -> underlying ty = TInt W64.
Proof.
  induction ty as [| w | w | w | | k IHk e IHe | l | n u IHu | k r];
    simpl; try discriminate; auto.
  - destruct w; try discriminate; reflexivity.
  - destruct w; discriminate.
  - destruct w; discriminate.
  - destruct k; discriminate.
Qed.

Section ValueFacts.
Context {D : Type} `{Dispenser D} `{Host D}.

(** X8.  A signed integer field, whatever its width and whether its type is
    defined or not, reads back the decimal numeral of every value of its
    width, and rejects the numeral of any other integer with "cannot parse
    int", leaving the field as it was. *)
Theorem int_field_round_trip (d : D) (r : reflectValue) (w : IntWidth)
    (z : Z) :
  underlying (t r) = TInt w ->
  implementsUnmarshaler (t r) = None ->
  unmarshalValue d r (FormatInt z)
  = if (- 2 ^ (width_bits w - 1) <=? z)%Z
       && (z <=? 2 ^ (width_bits w - 1) - 1)%Z
    then (None, d, VInt z)
    else (Some (WrapErr d (ErrCannotParseInt (FormatInt z))), d, v r).
Proof.
  intros Hu Hno. unfold unmarshalValue. rewrite Hno.
  rewrite <- (Kind_underlying (t r)). unfold Bits. rewrite Hu.
  assert (ParseInt (FormatInt z) (width_bits w)
          = if (- 2 ^ (width_bits w - 1) <=? z)%Z
               && (z <=? 2 ^ (width_bits w - 1) - 1)%Z
            then Some z else None) as E by apply ParseInt_FormatInt.
  destruct w; simpl Kind; cbv iota; rewrite E;
    destruct (_ && _); reflexivity.
Qed.

(** X9.  An unsigned integer field reads back the decimal numeral of every
    value of its width, and rejects the numeral of a negative or a larger
    integer with "cannot parse uint", leaving the field as it was. *)
Theorem uint_field_round_trip (d : D) (r : reflectValue) (w : IntWidth)
    (z : Z) :
  underlying (t r) = TUint w ->
  implementsUnmarshaler (t r) = None ->
  unmarshalValue d r (FormatInt z)
  = if (0 <=? z)%Z && (z <=? 2 ^ width_bits w - 1)%Z
    then (None, d, VUint z)
    else (Some (WrapErr d (ErrCannotParseUint (FormatInt z))), d, v r).
Proof.
  intros Hu Hno. unfold unmarshalValue. rewrite Hno.
  rewrite <- (Kind_underlying (t r)). unfold Bits. rewrite Hu.
  pose proof (ParseUint_FormatInt z (width_bits w)) as E.
  destruct w; simpl Kind; cbv iota; rewrite E;
    destruct (_ && _); reflexivity.
Qed.

(** X10.  A field of type [caddy.Duration] or [time.Duration], or of a type
    assignable to one of them, is of kind [Int64]: the switch on the kind
    reads it with [strconv.ParseInt] as a plain integer, and the two
    duration parsers further down are never called. *)
Theorem duration_field_is_read_as_integer (d : D) (r : reflectValue)
    (raw : string) :
  implementsUnmarshaler (t r) = None ->
  AssignableTo (t r) TypeCaddyDuration = true
  \/ AssignableTo (t r) TypeDuration = true ->
  unmarshalValue d r raw
  = match ParseInt raw 64 with
    | Some i => (None, d, VInt i)
    | None => (Some (WrapErr d (ErrCannotParseInt raw)), d, v r)
    end.
Proof.
  intros Hno Hassign.
  assert (Kind (t r) = Reflect.Int64) as K.
  { destruct Hassign as [Ha | Ha]; apply AssignableTo_Kind in Ha; exact Ha. }
  unfold unmarshalValue. rewrite Hno, K. unfold Bits.
  rewrite (Kind_Int64_underlying _ K). reflexivity.
Qed.

(** X11.  For a type without a decoder of its own, [unmarshalValue] leaves
    the cursor where it was, and on an error it leaves the value as it
    was. *)
Theorem builtin_coercion_is_local (d d' : D) (r : reflectValue)
    (raw : string) (err : option error) (x : Value) :
  implementsUnmarshaler (t r) = None ->
  unmarshalValue d r raw = (err, d', x) ->
  d' = d /\ (err <> None -> x = v r).
Proof.
  intros Hno. unfold unmarshalValue. rewrite Hno.
  repeat match goal with
         | |- context [match ?c with _ => _ end] => destruct c
         end;
    intros [= <- <- <-]; split; congruence.
Qed.
End ValueFacts.

Lemma int_field_round_trip_witness :
  let port := mkReflectValue (VInt 0) (TNamed "Port" (TInt W8)) in
  let d := directive [tok 1 "d"; tok 1 "127"] in
  @unmarshalValue _ caddy_dispenser (bare_host _) d port (FormatInt 127)
  = (None, d, VInt 127).
Proof.
  intros port d.
  exact (@int_field_round_trip _ caddy_dispenser (bare_host _) d port W8 127
           eq_refl eq_refl).
Defined.

Lemma uint_field_round_trip_witness :
  let size := mkReflectValue (VUint 7) (TUint W16) in
  let d := directive [tok 1 "d"; tok 1 "65536"] in
  @unmarshalValue _ caddy_dispenser (bare_host _) d size (FormatInt 65536)
  = (Some (ErrPosition 1 (ErrCannotParseUint "65536")), d, VUint 7).
Proof.
  intros size d.
  exact (@uint_field_round_trip _ caddy_dispenser (bare_host _) d size W16
           65536 eq_refl eq_refl).
Defined.

Lemma duration_field_is_read_as_integer_witness :
  let timeout := mkReflectValue (VInt 0) TypeCaddyDuration in
  let d := directive [tok 1 "timeout"; tok 1 "30s"] in
  @unmarshalValue _ caddy_dispenser (bare_host _) d timeout "30s"
  = (Some (ErrPosition 1 (ErrCannotParseInt "30s")), d, VInt 0).
Proof.
  intros timeout d.
  exact (@duration_field_is_read_as_integer _ caddy_dispenser (bare_host _)
           d timeout "30s" eq_refl (or_introl eq_refl)).
Defined.

Lemma builtin_coercion_is_local_witness :
  let flag := mkReflectValue (VBool true) TBool in
  let d := directive [tok 1 "d"; tok 1 "maybe"] in
  @unmarshalValue _ caddy_dispenser (bare_host _) d flag "maybe"
  = (Some (ErrPosition 1 (ErrCannotParseBool "maybe")), d, VBool true)
  /\ d = d
  /\ (Some (ErrPosition 1 (ErrCannotParseBool "maybe")) <> None ->
      VBool true = VBool true).
Proof.
  intros flag d. split; [reflexivity |].
  apply (@builtin_coercion_is_local _ caddy_dispenser (bare_host _)
           d d flag "maybe"
           (Some (ErrPosition 1 (ErrCannotParseBool "maybe")))
           (VBool true));
    reflexivity.
Defined.

(** ** Argument lines *)

Section ArgumentFacts.
Context {D : Type} `{Runtime} `{Dispenser D} `{Host D}.

Lemma otherFieldAt_lookup (info : structInfo) (i : nat) :
  otherFieldAt info (Z.of_nat i) = otherFields info !! i.
Proof.
  unfold otherFieldAt. rewrite Nat2Z.id.
  destruct (Z.ltb_spec (Z.of_nat i) 0) as [Hlt | _]; [lia |]. simpl.
  destruct (Z.leb_spec (Z.of_nat (length (otherFields info))) (Z.of_nat i))
    as [Hle | Hlt]; [| reflexivity].
  symmetry. apply lookup_ge_None. lia.
Qed.

(** The walk over the argument tokens [ws], started at position [i]. *)
Lemma unmarshal_loop_args (http : bool) (info : structInfo) (ty : Type_)
    (hadBlock : bool) (ws : list string) :
  forall (fuel i : nat) (d d1 : D) (val : Value),
    Forall stringField (otherFields info) ->
    i + length ws <= length (otherFields info) ->
    afterArgs d ws = Some d1 ->
    unmarshal_loop (length ws + fuel) http info ty hadBlock i d val
    = unmarshal_loop fuel http info ty hadBlock (i + length ws) d1
        (assignArgs val (drop i (otherFields info)) ws).
Proof.
  induction ws as [| w ws IH]; intros fuel i d d1 val Hstr Hlen Hd.
  - simpl in Hd. injection Hd as <-. simpl. rewrite Nat.add_0_r.
    now destruct (drop i (otherFields info)).
  - simpl in Hd, Hlen.
    destruct (NextArg d) as [isArg d2] eqn:Ea.
    destruct isArg; [| discriminate]. simpl in Hd.
    destruct (String.eqb_spec (Val d2) w) as [Ew | ]; [| discriminate].
    destruct (lookup_lt_is_Some_2 (otherFields info) i ltac:(lia))
      as [f Hf].
    assert (stringField f) as [Kf Uf].
    { rewrite Forall_forall in Hstr. apply Hstr.
      eapply list_elem_of_lookup_2, Hf. }
    change (length (w :: ws) + fuel) with (S (length ws + fuel)).
    simpl unmarshal_loop. rewrite Ea, otherFieldAt_lookup, Hf.
    unfold unmarshalValue. simpl t. rewrite Uf, Kf.
    rewrite (IH fuel (S i) d2 d1 _ Hstr ltac:(lia) Hd).
    rewrite (drop_S _ _ _ Hf). simpl. rewrite Ew.
    f_equal. lia.
Qed.

Lemma extractFields_Kind (r : reflectValue) (x : result structInfo) :
  extractFields r = Return x -> Kind (t r) = Reflect.Struct.
Proof.
  unfold extractFields.
  destruct (fields_of (t r)) as [fs |] eqn:E; [| discriminate].
  intros _. eapply fields_of_Kind, E.
Qed.

Lemma Unmarshal_unmarshal (fuel : nat) (d : D) (r : reflectValue)
    (x : result structInfo) :
  extractFields r = Return x ->
  Unmarshal fuel d r = unmarshal fuel false d r.
Proof.
  intros He. unfold Unmarshal, newReflectValue.
  rewrite (extractFields_Kind r x He). reflexivity.
Qed.


(** X13.  One argument token more than the merged list has fields is
    rejected with "unexpected argument at [n]", n being the length of the
    list; the fields filled before the error stay filled. *)
Theorem surplus_argument_is_rejected (fuel : nat) (d d1 d2 : D)
    (r : reflectValue) (info : structInfo) (ws : list string) :
  extractFields r = Return (Ok info) ->
  matcher info = None ->
  Forall stringField (otherFields info) ->
  length ws = length (otherFields info) ->
  afterArgs d ws = Some d1 ->
  NextArg d1 = (true, d2) ->
  Unmarshal (2 + length ws + fuel) d r
  = Return (Some (WrapErr d2 (ErrUnexpectedArgumentAt (length ws) (Val d2))),
            d2, assignArgs (v r) (otherFields info) ws).
Proof.
  intros He Hm Hstr Hlen Hd Ha.
  rewrite (Unmarshal_unmarshal _ _ _ _ He).
  replace (2 + length ws + fuel) with (S (length ws + S fuel)) by lia.
  remember (length ws + S fuel) as n eqn:En.
  simpl unmarshal. rewrite He. simpl bind. rewrite Hm. subst n.
  rewrite (unmarshal_loop_args _ _ _ _ ws (S fuel) 0 d d1 _ Hstr
             ltac:(lia) Hd).
  simpl. rewrite Ha, otherFieldAt_lookup.
  rewrite (proj2 (lookup_ge_None (otherFields info) (length ws)))
    by lia.
  reflexivity.
Qed.
End ArgumentFacts.


Lemma surplus_argument_is_rejected_witness :
  exists d2,
    @Unmarshal _ go_runtime caddy_dispenser (bare_host _) 4
      (directive [tok 1 "pair"; tok 1 "x"; tok 1 "y"; tok 1 "z"])
      (fresh pair)
    = Return (Some (ErrPosition 1 (ErrUnexpectedArgumentAt 2 "z")), d2,
              VStruct [VString "x"; VString "y"]).
Proof.
  eexists.
  refine (@surplus_argument_is_rejected _ go_runtime caddy_dispenser
            (bare_host _) 0
            (directive [tok 1 "pair"; tok 1 "x"; tok 1 "y"; tok 1 "z"]) _ _
            (fresh pair)
            (mkStructInfo []
               [mkFieldInfo (tagged "A" TString "$1") 0
                  (argumentKind 1 false);
                mkFieldInfo (tagged "B" TString "$2") 1
                  (argumentKind 2 false)]
               None)
            ["x"; "y"] eq_refl eq_refl _ eq_refl eq_refl eq_refl).
  repeat constructor.
Defined.

(** ** Blocks *)

Lemma unmarshalBlock_errors_witness :
  let d := inside [tok 1 "name"; tok 1 "{"; tok 2 "x"; tok 3 "}"] 2 1 in
  @unmarshalBlock _ go_runtime caddy_dispenser (bare_host _) 1 false d 0
    (mkReflectValue (VString "") TString)
  = Return (Some (ErrExpectedStructOrMap TString), d, VString "")
  /\ d = d /\ VString "" = VString ""
  /\ ((exists e', ErrExpectedStructOrMap TString = ErrCannotExtractFields e')
      \/ ErrExpectedStructOrMap TString = ErrExpectedStructOrMap TString).
Proof.
  intros d. split; [reflexivity |].
  exact (@unmarshalBlock_errors _ go_runtime caddy_dispenser (bare_host _)
           1 false d 0 (mkReflectValue (VString "") TString)
           (ErrExpectedStructOrMap TString) d (VString "") eq_refl).
Defined.

Lemma fields_of_None (ty : Type_) :
  Kind ty <> Reflect.Struct -> fields_of ty = None.
Proof.
  intros Hk. destruct (fields_of ty) as [fs |] eqn:E; [| reflexivity].
  now apply fields_of_Kind in E.
Qed.

Lemma Kind_eqb_false (a b : Reflect.Kind) :
  a <> b -> Reflect.Kind_eqb a b = false.
Proof.
  intros Hne. destruct (Reflect.Kind_eqb a b) eqn:E; [| reflexivity].
  now apply Kind_eqb_eq in E.
Qed.

Lemma blockFieldNamed_in_None (l : list fieldInfo) (name : string) :
  Forall (fun x => Name (field x) <> name) l ->
  blockFieldNamed_in l name = None.
Proof.
  induction 1 as [| x l Hx Hl IH]; simpl; [reflexivity |].
  destruct (String.eqb_spec (Name (field x)) name); [contradiction | exact IH].
Qed.

Section BlockFacts.
Context {D : Type} `{Runtime} `{Dispenser D} `{Host D}.

(** X15.  In the block of a record, a line whose first word is the Go name
    of no field of the record is skipped without an error, whatever entry
    names the tags declare: the cursor moves behind the line's segment and
    the record is left as it is. *)
Theorem unknown_block_line_is_skipped (fuel : nat) (http : bool) (d : D)
    (r : reflectValue) (fs : list StructField) (info : structInfo)
    (val : Value) :
  fields_of (t r) = Some fs ->
  extractFields r = Return (Ok info) ->
  Forall (fun f => Name f <> Val d) fs ->
  parse (S fuel) http false info (t r) d val
  = Return (None, NextSegment d, val).
Proof.
  intros Hfs He Hnames. simpl.
  unfold blockFieldNamed. rewrite blockFieldNamed_in_None; [reflexivity |].
  destruct (extractFields_fromField r fs info Hfs He) as [Hb _].
  eapply Forall_impl; [exact Hb |].
  intros x [Hx _]. rewrite Forall_forall in Hnames.
  apply Hnames. eapply list_elem_of_lookup_2, Hx.
Qed.

(** X16.  In the block of a record, a line that names a field of a kind
    other than bool and struct (a string, a number, a map) makes the decoder
    panic: the field is handed to [unmarshal], which asks it for its
    fields. *)
Theorem block_line_for_scalar_field_panics (fuel : nat) (http : bool)
    (d : D) (nesting : Z) (r : reflectValue) (info : structInfo)
    (f : fieldInfo) :
  extractFields r = Return (Ok info) ->
  blockFieldNamed info (Val d) = Some f ->
  Kind (Typ (field f)) <> Reflect.Bool ->
  Kind (Typ (field f)) <> Reflect.Struct ->
  unmarshalBlock (4 + fuel) http d nesting r = Panic NumField_panic.
Proof.
  intros He Hf Hb Hs.
  assert (Kind (t r) = Reflect.Struct) as K.
  { unfold extractFields in He.
    destruct (fields_of (t r)) as [fs |] eqn:E; [| discriminate].
    eapply fields_of_Kind, E. }
  change (4 + fuel) with (S (S (S (S fuel)))).
  simpl unmarshalBlock. rewrite K, He. simpl. rewrite Hf.
  simpl. rewrite (Kind_eqb_false _ _ Hb).
  unfold extractFields. simpl t. now rewrite (fields_of_None _ Hs).
Qed.


(** X18.  The decoder never allocates a map: a block decoded into a nil map
    from strings to booleans panics on its first line, when the deferred
    [SetMapIndex] runs. *)
Theorem nil_map_block_panics (fuel : nat) (http : bool) (d : D)
    (nesting : Z) (r : reflectValue) :
  Kind (t r) = Reflect.Map ->
  v r = VMap None ->
  Kind (Key (t r)) = Reflect.String ->
  implementsUnmarshaler (Key (t r)) = None ->
  Kind (Elem (t r)) = Reflect.Bool ->
  unmarshalBlock (3 + fuel) http d nesting r
  = Panic "assignment to entry in nil map".
Proof.
  intros K Hv Kk Uk Ke.
  change (3 + fuel) with (S (S (S fuel))).
  simpl unmarshalBlock. rewrite K, Hv. simpl.
  unfold unmarshalValue. simpl t. rewrite Uk, Kk, Ke. simpl.
  destruct (CountRemainingArgs d) as [count d1].
  destruct (0 <? count)%Z; reflexivity.
Qed.

Lemma unmarshalBlock_loop_flags (http : bool) (info : structInfo)
    (nesting : Z) (ty : Type_) (keys : list string) :
  Kind (Key ty) = Reflect.String ->
  implementsUnmarshaler (Key ty) = None ->
  Kind (Elem ty) = Reflect.Bool ->
  forall (fuel : nat) (d d' : D) (m : list (Value * Value)),
    afterFlags d nesting keys = Some d' ->
    unmarshalBlock_loop (1 + length keys + fuel) http true info nesting ty d
      (VMap (Some m))
    = Return (None, d', VMap (Some (withFlags m keys))).
Proof.
  intros Kk Uk Ke.
  induction keys as [| k keys IH]; intros fuel d d' m Hd; [discriminate |].
  simpl in Hd.
  destruct (String.eqb_spec (Val d) k) as [Ek |]; [| discriminate].
  destruct (CountRemainingArgs d) as [count d1] eqn:Ec.
  destruct (0 <? count)%Z eqn:E0; [discriminate |].
  destruct (NextBlock d1 nesting) as [more d2] eqn:En.
  change (1 + length (k :: keys) + fuel) with (S (S (length keys + fuel))).
  remember (length keys + fuel) as n eqn:Hn.
  simpl unmarshalBlock_loop. unfold unmarshalValue. simpl t.
  rewrite Uk, Kk, Ke. simpl. rewrite Ec, E0. simpl. rewrite En, Ek.
  destruct keys as [| k' keys].
  - destruct more; [discriminate |]. now injection Hd as <-.
  - destruct more; [| discriminate].
    subst n. apply (IH fuel d2 d' _ Hd).
Qed.

(** X19.  A block of one-word lines decoded into an allocated map from
    strings to booleans sets each of the words to true in the map, and
    returns nil with the cursor behind the block. *)
Theorem flag_block_sets_each_key (fuel : nat) (http : bool) (d d' : D)
    (nesting : Z) (r : reflectValue) (m : list (Value * Value))
    (keys : list string) :
  Kind (t r) = Reflect.Map ->
  Kind (Key (t r)) = Reflect.String ->
  implementsUnmarshaler (Key (t r)) = None ->
  Kind (Elem (t r)) = Reflect.Bool ->
  v r = VMap (Some m) ->
  afterFlags d nesting keys = Some d' ->
  unmarshalBlock (2 + length keys + fuel) http d nesting r
  = Return (None, d', VMap (Some (withFlags m keys))).
Proof.
  intros K Kk Uk Ke Hv Hd.
  change (2 + length keys + fuel) with (S (1 + length keys + fuel)).
  remember (1 + length keys + fuel) as n eqn:Hn.
  simpl unmarshalBlock. rewrite K, Hv. subst n.
  now apply unmarshalBlock_loop_flags.
Qed.
End BlockFacts.

Lemma unknown_block_line_is_skipped_witness :
  let d := inside [tok 1 "thing2"; tok 1 "a"; tok 1 "{";
                   tok 2 "parameter"; tok 2 "value";
                   tok 3 "}"] 3 1 in
  @parse _ go_runtime caddy_dispenser (bare_host _) 1 false false
    thing2_info thing2 d (Zero thing2)
  = Return (None, Caddyfile.NextSegment d, Zero thing2).
Proof.
  intros d.
  apply (@unknown_block_line_is_skipped _ go_runtime caddy_dispenser
           (bare_host _) 0 false d (fresh thing2)
           [tagged "Arg1" TString "$1";
            tagged "Arg2" TString "$2,optional";
            tagged "Param" TString "parameter";
            untagged "Number" (TInt WInt);
            untagged "Flag" TBool]).
  - reflexivity.
  - reflexivity.
  - repeat constructor; discriminate.
Defined.

Lemma block_line_for_scalar_field_panics_witness :
  @unmarshalBlock _ go_runtime caddy_dispenser (bare_host _) 4 false
    (inside [tok 1 "thing2"; tok 1 "a"; tok 1 "{";
             tok 2 "Param"; tok 2 "value";
             tok 3 "}"] 3 1)
    0 (fresh thing2)
  = Panic NumField_panic.
Proof.
  eapply (@block_line_for_scalar_field_panics _ go_runtime caddy_dispenser
            (bare_host _) 0).
  - reflexivity.
  - reflexivity.
  - discriminate.
  - discriminate.
Defined.


Lemma nil_map_block_panics_witness :
  @unmarshalBlock _ go_runtime caddy_dispenser (bare_host _) 3 false
    (inside [tok 1 "flags"; tok 1 "{";
             tok 2 "verbose";
             tok 3 "}"] 2 1)
    0 (fresh (TMap TString TBool))
  = Panic "assignment to entry in nil map".
Proof.
  apply (@nil_map_block_panics _ go_runtime caddy_dispenser
           (bare_host _) 0); reflexivity.
Defined.

Lemma flag_block_sets_each_key_witness :
  exists d',
    @unmarshalBlock _ go_runtime caddy_dispenser (bare_host _) 5 false
      (inside [tok 1 "flags"; tok 1 "{";
               tok 2 "verbose";
               tok 3 "quiet";
               tok 4 "verbose";
               tok 5 "}"] 2 1)
      0 (mkReflectValue (VMap (Some [(VString "quiet", VBool false)]))
           (TMap TString TBool))
    = Return (None, d',
              VMap (Some [(VString "quiet", VBool true);
                          (VString "verbose", VBool true)])).
Proof.
  eexists.
  refine (@flag_block_sets_each_key _ go_runtime caddy_dispenser
            (bare_host _) 0 false
            (inside [tok 1 "flags"; tok 1 "{";
                     tok 2 "verbose";
                     tok 3 "quiet";
                     tok 4 "verbose";
                     tok 5 "}"] 2 1) _ 0
            (mkReflectValue (VMap (Some [(VString "quiet", VBool false)]))
               (TMap TString TBool))
            [(VString "quiet", VBool false)]
            ["verbose"; "quiet"; "verbose"]
            eq_refl eq_refl eq_refl eq_refl eq_refl eq_refl).
Defined.

(** ** The growth rule and the helper *)



Section MatcherFreeFacts.
Context {D : Type} `{Runtime} `{Dispenser D} `{Host D}.

Lemma matcherFree_fields (ty : Type_) (fs : list StructField) :
  matcherFree ty = true ->
  fields_of ty = Some fs ->
  existsb isMatcherField fs = false
  /\ Forall (fun f => matcherFree (Typ f) = true) fs.
Proof.
  unfold fields_of.
  induction ty as [| w | w | w | | k IHk e IHe | l | n u IHu | k r];
    simpl; try discriminate; auto.
  intros Hm [= <-]. apply andb_prop in Hm as [Hno Hall].
  split; [apply negb_true_iff; exact Hno |]. clear Hno.
  induction l as [| [name pkg fty tag] l IH]; [constructor |].
  apply andb_prop in Hall as [Hf Hall].
  constructor; [exact Hf | now apply IH].
Qed.

Lemma matcherFree_Key_Elem (ty : Type_) :
  matcherFree ty = true ->
  matcherFree (Key ty) = true /\ matcherFree (Elem ty) = true.
Proof.
  unfold Key, Elem.
  induction ty as [| w | w | w | | k IHk e IHe | l | n u IHu | k r];
    simpl; auto.
  intros Hm. now apply andb_prop in Hm.
Qed.

Lemma extractField_no_matcher (st st' : extractState) (i : nat)
    (f : StructField) :
  isMatcherField f = false ->
  extractField st i f = Ok st' ->
  st_matcher st' = st_matcher st.
Proof.
  unfold isMatcherField, extractField.
  destruct (IsExported f); simpl; [| now intros _ [= <-]].
  intros Hm.
  destruct (String.eqb (Tag_Get (Tag f) "caddyfile") "") eqn:Et.
  { destruct (append _ _ _). now intros [= <-]. }
  destruct (String.eqb _ "-"); [now intros [= <-] |].
  rewrite Hm.
  repeat match goal with
         | |- context [let '(_, _) := ?c in _] => destruct c
         | |- context [if ?c then _ else _] => destruct c
         | |- context [match ?c with Some _ => _ | None => _ end] => destruct c
         end; try discriminate; now intros [= <-].
Qed.

Lemma extractLoop_no_matcher (fs : list StructField) :
  forall (i : nat) (st st' : extractState),
    existsb isMatcherField fs = false ->
    extractLoop fs i st = Ok st' ->
    st_matcher st' = st_matcher st.
Proof.
  induction fs as [| f fs IH]; simpl; intros i st st' Hno E.
  - now injection E as <-.
  - apply orb_false_elim in Hno as [Hf Hfs].
    destruct (extractField st i f) as [st1 | e] eqn:E1; [| discriminate].
    rewrite (IH _ _ _ Hfs E).
    eapply extractField_no_matcher; eassumption.
Qed.

Lemma extractFields_matcherFree (r : reflectValue) (info : structInfo) :
  matcherFree (t r) = true ->
  extractFields r = Return (Ok info) ->
  matcher info = None /\ matcherFreeInfo info.
Proof.
  intros Hm He.
  destruct (fields_of (t r)) as [fs |] eqn:Hfs;
    [| unfold extractFields in He; rewrite Hfs in He; discriminate].
  destruct (matcherFree_fields _ _ Hm Hfs) as [Hno Hall].
  split.
  - unfold extractFields in He. rewrite Hfs in He.
    destruct (extractLoop fs 0 extract_init) as [st | e] eqn:El;
      [| discriminate].
    apply (extractLoop_no_matcher fs 0 _ _ Hno) in El.
    simpl in He.
    destruct (validateOptional _ _ _); [discriminate |].
    destruct (validateUnique _ _); [discriminate |].
    injection He as <-. exact El.
  - destruct (extractFields_fromField r fs info Hfs He) as [Hb Ho].
    rewrite Forall_forall in Hall.
    split; (eapply Forall_impl; [eassumption |]);
      intros x [Hx _]; apply Hall; eapply list_elem_of_lookup_2, Hx.
Qed.

Lemma otherFieldAt_matcherFree (info : structInfo) (ix : Z) (f : fieldInfo) :
  matcherFreeInfo info -> otherFieldAt info ix = Some f ->
  matcherFree (Typ (field f)) = true.
Proof.
  intros [_ Ho]. unfold otherFieldAt.
  destruct (_ || _); [discriminate |]. intros Hf.
  rewrite Forall_forall in Ho. apply Ho.
  eapply list_elem_of_lookup_2, Hf.
Qed.

Lemma blockFieldNamed_matcherFree (info : structInfo) (name : string)
    (f : fieldInfo) :
  matcherFreeInfo info -> blockFieldNamed info name = Some f ->
  matcherFree (Typ (field f)) = true.
Proof.
  intros [Hb _]. unfold blockFieldNamed.
  induction Hb as [| x l Hx Hl IH]; simpl; [discriminate |].
  destruct (String.eqb _ _); [now intros [= <-] | exact IH].
Qed.

Ltac free_side :=
  simpl;
  first
    [ assumption
    | eapply otherFieldAt_matcherFree; eassumption
    | eapply blockFieldNamed_matcherFree; eassumption
    | match goal with
      | Hty : matcherFree ?ty = true |- matcherFree (Key ?ty) = true =>
          apply (matcherFree_Key_Elem ty Hty)
      | Hty : matcherFree ?ty = true |- matcherFree (Elem ?ty) = true =>
          apply (matcherFree_Key_Elem ty Hty)
      end
    | split; constructor ].

Ltac same IH1 IH2 IH3 IH4 IH5 :=
  repeat first
    [ reflexivity
    | apply IH1; free_side
    | apply IH2; free_side
    | apply IH3; free_side
    | apply IH4; free_side
    | apply IH5; free_side
    | match goal with
      | Hr : matcherFree (t ?r) = true |- bind (extractFields ?r) _ = _ =>
          let E := fresh "E" in
          destruct (extractFields r) as [[? | ?] | |] eqn:E; simpl;
          [ destruct (extractFields_matcherFree _ _ Hr E) as [Hnone ?];
            rewrite ?Hnone
          | | | ]
      end
    | apply bind_ext; [| intro; cbv beta]
    | match goal with
      | |- (let '(_, _) := ?x in _) = _ => destruct x eqn:?
      | |- match ?x with _ => _ end = _ => destruct x eqn:?
      | |- (if ?x then _ else _) = _ => destruct x eqn:?
      end ].

(** With and without the helper, the five functions of the decoder do the
    same on matcher-free types. *)
Lemma http_agree (n : nat) :
  (forall d r,
      matcherFree (t r) = true ->
      unmarshal n true d r = unmarshal n false d r)
  /\ (forall info ty hb i d val,
         matcherFree ty = true -> matcherFreeInfo info ->
         unmarshal_loop n true info ty hb i d val
         = unmarshal_loop n false info ty hb i d val)
  /\ (forall d nesting r,
         matcherFree (t r) = true ->
         unmarshalBlock n true d nesting r
         = unmarshalBlock n false d nesting r)
  /\ (forall isMap info nesting ty d val,
         matcherFree ty = true -> matcherFreeInfo info ->
         unmarshalBlock_loop n true isMap info nesting ty d val
         = unmarshalBlock_loop n false isMap info nesting ty d val)
  /\ (forall isMap info ty d val,
         matcherFree ty = true -> matcherFreeInfo info ->
         parse n true isMap info ty d val
         = parse n false isMap info ty d val).
Proof.
  induction n as [| n (IH1 & IH2 & IH3 & IH4 & IH5)].
  - repeat split; reflexivity.
  - repeat split; intros; simpl.
    all: same IH1 IH2 IH3 IH4 IH5.
Qed.

(** X21.  On a record type that declares no matcher field, in itself or in
    the types of its fields, [UnmarshalForHTTP] does what [Unmarshal] does:
    the helper is only ever consulted for a matcher. *)
Theorem helper_is_used_for_matchers_only (fuel : nat) (d : D)
    (r : reflectValue) :
  matcherFree (t r) = true ->
  UnmarshalForHTTP fuel d r = Unmarshal fuel d r.
Proof.
  intros Hm. unfold Unmarshal, UnmarshalForHTTP.
  destruct (newReflectValue r) as [r' | e] eqn:E; [| reflexivity].
  unfold newReflectValue in E.
  destruct (Reflect.Kind_eqb _ _); [| discriminate].
  injection E as <-. now apply http_agree.
Qed.
End MatcherFreeFacts.

Lemma helper_is_used_for_matchers_only_witness :
  @UnmarshalForHTTP _ go_runtime caddy_dispenser (bare_host _) 16
    scenarioB (fresh thing2)
  = @Unmarshal _ go_runtime caddy_dispenser (bare_host _) 16
      scenarioB (fresh thing2).
Proof.
  apply (@helper_is_used_for_matchers_only _ go_runtime caddy_dispenser
           (bare_host _) 16 scenarioB (fresh thing2)).
  reflexivity.
Defined.
